(** * retry-simple: the retry control loop of [src/index.ts]

    A shallow embedding of [retry] and of the inline delay computation,
    followed by the properties of the loop: attempt counting, the sequence
    of waits, the jitter bounds, the per-attempt timeout and the paths on
    which the loop ends.

    Conventions of the embedding.
    - A JavaScript number is an exact number: [Z] for the attempt counter and
      the [retries] budget, [Q] for durations in milliseconds.  Rounding of
      IEEE doubles is not part of the model.
    - The wrapped operation [fn] is a closure; what its k-th invocation does
      is [fn k] (k counts invocations from 0): it settles after some time
      with a value or an error, or it never settles.
    - [Math.random] is a stream [rand] of numbers; the state counts the draws.
    - What the loop does to the outside world is recorded as a list of
      events: invocations of [fn], of [shouldRetry], of [onRetry], and the
      waits handed to [setTimeout].
    - Timers are those of Node.js: [setTimeout] replaces a delay below 1 ms
      or above 2^31 - 1 ms by 1 ms, and fires that many milliseconds after
      it is armed.  The timer of [timeout] is armed when [fn()] has returned
      its promise, so times are counted from there; the operation, which is
      started first, wins a tie.  The two hooks return normally. *)

From Stdlib Require Import ZArith QArith Qpower String List Bool Lia Lqa.
Import ListNotations.

Open Scope Z_scope.

Module Retry.

(** ** Errors and options *)

(** The value caught in the [catch] block: either whatever the operation
    rejected with (opaque to the loop), or an [Error] object created by
    [retry] itself, identified by its message. *)
Inductive error (E : Type) : Type :=
| OpError (e : E)
| JsError (message : string).
Arguments OpError {E} e.
Arguments JsError {E} message.

Definition timeoutError {E} : error E := JsError "Operation timed out".
Definition exhaustedError {E} : error E := JsError "Retry attempts exhausted.".

(** [interface RetryOptions]: every field is optional. *)
Record RetryOptions (E : Type) : Type := mkOptions {
  retries : option Z;
  delay : option Q;
  backoff : option bool;
  jitter : option bool;
  maxDelay : option Q;
  timeout : option Q;
  onRetry : option (error E -> Z -> unit);
  shouldRetry : option (error E -> Z -> bool)
}.
Arguments mkOptions {E}.
Arguments retries {E}.
Arguments delay {E}.
Arguments backoff {E}.
Arguments jitter {E}.
Arguments maxDelay {E}.
Arguments timeout {E}.
Arguments onRetry {E}.
Arguments shouldRetry {E}.

(** The constants bound by the destructuring at the head of [retry], with
    the defaults filled in. *)
Record Config (E : Type) : Type := mkConfig {
  c_retries : Z;
  c_delay : Q;
  c_backoff : bool;
  c_jitter : bool;
  c_maxDelay : option Q;
  c_timeout : option Q;
  c_onRetry : option (error E -> Z -> unit);
  c_shouldRetry : error E -> Z -> bool
}.
Arguments mkConfig {E}.
Arguments c_retries {E}.
Arguments c_delay {E}.
Arguments c_backoff {E}.
Arguments c_jitter {E}.
Arguments c_maxDelay {E}.
Arguments c_timeout {E}.
Arguments c_onRetry {E}.
Arguments c_shouldRetry {E}.

Definition orDefault {A} (d : A) (o : option A) : A :=
  match o with Some a => a | None => d end.

Definition destructure {E} (options : RetryOptions E) : Config E :=
  {| c_retries := orDefault 3 (retries options);
     c_delay := orDefault 1000%Q (delay options);
     c_backoff := orDefault false (backoff options);
     c_jitter := orDefault false (jitter options);
     c_maxDelay := maxDelay options;
     c_timeout := timeout options;
     c_onRetry := onRetry options;
     c_shouldRetry := orDefault (fun _ _ => true) (shouldRetry options) |}.

(** Truthiness of an optional number, as tested by [timeout ? ... : ...] and
    by [maxDelay && ...]: [undefined] and [0] are falsy. *)
Definition truthy (x : option Q) : option Q :=
  match x with
  | Some q => if Qeq_bool q 0 then None else Some q
  | None => None
  end.

(** ** The delay computation (the lines that compute [waitTime]) *)

Definition Qgtb (x y : Q) : bool := negb (Qle_bool x y).

(** [Math.random() * 0.4 + 0.8] *)
Definition randomFactor (random : Q) : Q := (random * (4 # 10) + (8 # 10))%Q.

(** [waitTime] after the doubling and the cap, before the jitter. *)
Definition cappedWait (backoff : bool) (maxDelay : option Q) (currentDelay : Q) : Q :=
  let waitTime := currentDelay in
  let waitTime := if backoff then (waitTime * 2)%Q else waitTime in
  match truthy maxDelay with
  | Some m => if Qgtb waitTime m then m else waitTime
  | None => waitTime
  end.

(** [waitTime] as it is handed to [setTimeout] and stored in [currentDelay]. *)
Definition waitTime (backoff : bool) (maxDelay : option Q) (jitter : bool)
    (random : Q) (currentDelay : Q) : Q :=
  let waitTime := cappedWait backoff maxDelay currentDelay in
  if jitter then (waitTime * randomFactor random)%Q else waitTime.

(** ** The operation and the race against the timeout *)

(** How a promise returned by [fn()] ends. *)
Inductive settlement (T E : Type) : Type :=
| Resolves (value : T)
| Rejects (reason : E).
Arguments Resolves {T E} value.
Arguments Rejects {T E} reason.

(** One invocation of [fn]: the promise settles [elapsed] milliseconds after
    [fn()] has returned it, which is when the timer of [timeout] is armed, or
    it stays pending for ever.  A synchronous [throw] inside [fn] is caught
    by the same [try] before any timer exists: a rejection after 0 ms. *)
Inductive behaviour (T E : Type) : Type :=
| Settles (elapsed : Q) (s : settlement T E)
| Pending.
Arguments Settles {T E} elapsed s.
Arguments Pending {T E}.

(** What [await] yields inside the [try] block. *)
Inductive attemptResult (T E : Type) : Type :=
| Succeeded (result : T)
| Failed (err : error E)
| Stuck.
Arguments Succeeded {T E} result.
Arguments Failed {T E} err.
Arguments Stuck {T E}.

Definition awaitSettlement {T E} (s : settlement T E) : attemptResult T E :=
  match s with
  | Resolves v => Succeeded v
  | Rejects e => Failed (OpError e)
  end.

(** The largest delay [setTimeout] accepts, 2^31 - 1 ms. *)
Definition TIMEOUT_MAX : Q := 2147483647.

(** The delay after which a timer armed by [setTimeout(f, ms)] fires:
    [if (!(ms >= 1 && ms <= TIMEOUT_MAX)) ms = 1]. *)
Definition timerDelay (ms : Q) : Q :=
  if Qle_bool 1 ms && Qle_bool ms TIMEOUT_MAX then ms else 1%Q.

(** [timeout ? await Promise.race([fn(), <timer>]) : await fn()] *)
Definition awaitAttempt {T E} (timeout : option Q) (b : behaviour T E)
  : attemptResult T E :=
  match truthy timeout with
  | Some t =>
      match b with
      | Settles elapsed s =>
          if Qle_bool elapsed (timerDelay t)
          then awaitSettlement s else Failed timeoutError
      | Pending => Failed timeoutError
      end
  | None =>
      match b with
      | Settles _ s => awaitSettlement s
      | Pending => Stuck
      end
  end.

(** ** The loop *)

Inductive event (E : Type) : Type :=
| EvCall (attempt : Z)                          (* fn() *)
| EvShouldRetry (err : error E) (attempt : Z)   (* shouldRetry(error, attempt) *)
| EvOnRetry (err : error E) (attempt : Z)       (* onRetry?.(error, attempt) *)
| EvSleep (ms : Q).                             (* setTimeout(r, waitTime) *)
Arguments EvCall {E} attempt.
Arguments EvShouldRetry {E} err attempt.
Arguments EvOnRetry {E} err attempt.
Arguments EvSleep {E} ms.

(** The loop variables, and the two counters of the environment: how often
    [fn] and [Math.random] have been called. *)
Record state : Type := mkState {
  attempt : Z;
  currentDelay : Q;
  calls : nat;
  draws : nat
}.

(** How the promise returned by [retry] ends. *)
Inductive completion (T E : Type) : Type :=
| Returned (result : T)
| Threw (err : error E)
| NeverSettles.
Arguments Returned {T E} result.
Arguments Threw {T E} err.
Arguments NeverSettles {T E}.

Inductive stepResult (T E : Type) : Type :=
| Continue (st : state) (evs : list (event E))
| Done (c : completion T E) (evs : list (event E)).
Arguments Continue {T E} st evs.
Arguments Done {T E} c evs.

Section Loop.
Context {T E : Type}.
Variable cfg : Config E.
Variable fn : nat -> behaviour T E.
Variable rand : nat -> Q.

(** The [catch (error)] block, entered with [attempt] already incremented. *)
Definition catchBlock (st : state) (err : error E) : stepResult T E :=
  let isLastAttempt := attempt st >? c_retries cfg in
  if isLastAttempt then Done (Threw err) []
  else if negb (c_shouldRetry cfg err (attempt st))
  then Done (Threw err) [EvShouldRetry err (attempt st)]
  else
    let w := waitTime (c_backoff cfg) (c_maxDelay cfg) (c_jitter cfg)
                      (rand (draws st)) (currentDelay st) in
    Continue
      {| attempt := attempt st;
         currentDelay := w;
         calls := calls st;
         draws := if c_jitter cfg then S (draws st) else draws st |}
      (EvShouldRetry err (attempt st)
         :: match c_onRetry cfg with
            | Some _ => [EvOnRetry err (attempt st)]
            | None => []
            end
         ++ [EvSleep w]).

(** [attempt++] followed by the call [fn()]. *)
Definition entered (st : state) : state :=
  {| attempt := attempt st + 1;
     currentDelay := currentDelay st;
     calls := S (calls st);
     draws := draws st |}.

(** Puts the invocation of [fn] in front of what the [catch] block did. *)
Definition afterCall (a : Z) (r : stepResult T E) : stepResult T E :=
  match r with
  | Continue st evs => Continue st (EvCall a :: evs)
  | Done c evs => Done c (EvCall a :: evs)
  end.

(** One evaluation of the [while] condition and, when it holds, of the
    loop body. *)
Definition iteration (st : state) : stepResult T E :=
  if attempt st <=? c_retries cfg then
    let st1 := entered st in
    match awaitAttempt (c_timeout cfg) (fn (calls st)) with
    | Succeeded result => Done (Returned result) [EvCall (attempt st1)]
    | Stuck => Done NeverSettles [EvCall (attempt st1)]
    | Failed err => afterCall (attempt st1) (catchBlock st1 err)
    end
  else Done (Threw exhaustedError) [].

Fixpoint loop (fuel : nat) (st : state) : option (completion T E * list (event E)) :=
  match fuel with
  | O => None
  | S fuel' =>
      match iteration st with
      | Done c evs => Some (c, evs)
      | Continue st' evs =>
          match loop fuel' st' with
          | Some (c, tr) => Some (c, evs ++ tr)
          | None => None
          end
      end
  end.

(** [let attempt = 0; let currentDelay = delay;] *)
Definition initial : state :=
  {| attempt := 0; currentDelay := c_delay cfg; calls := 0; draws := 0 |}.

(** The loop is entered at most [retries + 1] times with a true condition. *)
Definition enough : nat := S (Z.to_nat (c_retries cfg + 1)).

Definition run : option (completion T E * list (event E)) := loop enough initial.
End Loop.

(** [retry(fn, options)]: how the returned promise ends, and what happened
    on the way. *)
Definition retry {T E} (fn : nat -> behaviour T E) (options : RetryOptions E)
    (rand : nat -> Q) : option (completion T E * list (event E)) :=
  run (destructure options) fn rand.

(** ** Observations on a trace *)

Definition isCall {E} (ev : event E) : bool :=
  match ev with EvCall _ => true | _ => false end.

(** How many times [fn] was invoked. *)
Definition invocations {E} (tr : list (event E)) : nat :=
  List.length (List.filter isCall tr).

(** The durations waited between attempts, in order. *)
Fixpoint sleeps {E} (tr : list (event E)) : list Q :=
  match tr with
  | [] => []
  | EvSleep w :: tr' => w :: sleeps tr'
  | _ :: tr' => sleeps tr'
  end.

(** The calls of [onRetry], in order. *)
Fixpoint onRetryCalls {E} (tr : list (event E)) : list (error E * Z) :=
  match tr with
  | [] => []
  | EvOnRetry e a :: tr' => (e, a) :: onRetryCalls tr'
  | _ :: tr' => onRetryCalls tr'
  end.

(** ** The delay computation in the words of the specification *)

Module Spec.
(** "If backoff is true: currentDelay *= 2." *)
Definition double (backoff : bool) (d : Q) : Q :=
  if backoff then (d * 2)%Q else d.

(** "If maxDelay is set and currentDelay > maxDelay: clamp." *)
Definition clamp (maxDelay : option Q) (d : Q) : Q :=
  match maxDelay with
  | Some m => if Qgtb d m then m else d
  | None => d
  end.

(** "If jitter is true: multiply by a random factor", after the cap. *)
Definition scale (jitter : bool) (factor : Q) (d : Q) : Q :=
  if jitter then (d * factor)%Q else d.

Definition preJitter (currentDelay : Q) (backoff : bool) (maxDelay : option Q) : Q :=
  clamp maxDelay (double backoff currentDelay).

Definition computeNextDelay (currentDelay : Q) (backoff : bool)
    (maxDelay : option Q) (jitter : bool) (factor : Q) : Q :=
  scale jitter factor (preJitter currentDelay backoff maxDelay).
End Spec.

(** ** Notions used to state the properties *)

Section Notions.
Context {T E : Type}.
Variable cfg : Config E.
Variable fn : nat -> behaviour T E.

(** The events of an iteration that goes on to a further attempt. *)
Definition retryEvents (err : error E) (a : Z) (w : Q) : list (event E) :=
  EvCall a :: EvShouldRetry err a
    :: match c_onRetry cfg with Some _ => [EvOnRetry err a] | None => [] end
    ++ [EvSleep w].

(** The loop variables after an iteration that goes on to a further
    attempt. *)
Definition retried (rand : nat -> Q) (st : state) : state :=
  {| attempt := attempt st + 1;
     currentDelay := waitTime (c_backoff cfg) (c_maxDelay cfg) (c_jitter cfg)
                              (rand (draws st)) (currentDelay st);
     calls := S (calls st);
     draws := if c_jitter cfg then S (draws st) else draws st |}.

(** The ways an iteration can end the loop. *)
Inductive ending (st : state) : completion T E -> list (event E) -> Prop :=
| EndExhausted :
    c_retries cfg < attempt st ->
    ending st (Threw exhaustedError) []
| EndReturned v :
    attempt st <= c_retries cfg ->
    awaitAttempt (c_timeout cfg) (fn (calls st)) = Succeeded v ->
    ending st (Returned v) [EvCall (attempt st + 1)]
| EndStuck :
    attempt st <= c_retries cfg ->
    awaitAttempt (c_timeout cfg) (fn (calls st)) = Stuck ->
    ending st NeverSettles [EvCall (attempt st + 1)]
| EndLastAttempt err :
    attempt st = c_retries cfg ->
    awaitAttempt (c_timeout cfg) (fn (calls st)) = Failed err ->
    ending st (Threw err) [EvCall (attempt st + 1)]
| EndDeclined err :
    attempt st + 1 <= c_retries cfg ->
    awaitAttempt (c_timeout cfg) (fn (calls st)) = Failed err ->
    c_shouldRetry cfg err (attempt st + 1) = false ->
    ending st (Threw err)
           [EvCall (attempt st + 1); EvShouldRetry err (attempt st + 1)].

(** The operation fails at every attempt, by itself or by the timeout. *)
Definition alwaysFailing : Prop :=
  forall k, exists err, awaitAttempt (c_timeout cfg) (fn k) = Failed err.

(** The predicate never declines. *)
Definition alwaysRetry : Prop :=
  forall err a, c_shouldRetry cfg err a = true.


(** The attempt counter counts the invocations of [fn]. *)
Definition synced (st : state) : Prop := Z.of_nat (calls st) = attempt st.

End Notions.

(** ** Concrete operations and options *)

Module Examples.

(** Rejects after 5 ms, with the number of the invocation as the reason. *)
Definition rejecting : nat -> behaviour string nat :=
  fun k => Settles 5 (Rejects k).

(** Rejects once, then resolves. *)
Definition secondTimeLucky : nat -> behaviour string nat :=
  fun k => match k with
           | O => Settles 5 (Rejects O)
           | S _ => Settles 5 (Resolves "ok"%string)
           end.


(** [Math.random] stuck at one value. *)
Definition constRandom (r : Q) : nat -> Q := fun _ => r.

Definition hook : error nat -> Z -> unit := fun _ _ => tt.

(** [{ retries: 3, delay: 100, backoff: true }] *)
Definition backoffOptions : RetryOptions nat :=
  mkOptions (Some 3) (Some 100%Q) (Some true) None None None None None.

(** [{ retries: -1 }] *)
Definition negativeOptions : RetryOptions nat :=
  mkOptions (Some (-1)) None None None None None None None.

(** [{ retries: 1, delay: 100, maxDelay: 0 }] *)
Definition zeroCapOptions : RetryOptions nat :=
  mkOptions (Some 1) (Some 100%Q) None None (Some 0%Q) None None None.

(** [{ retries: 2, delay: 1000, backoff: true, jitter: true, maxDelay: 1500 }] *)
Definition cappedOptions : RetryOptions nat :=
  mkOptions (Some 2) (Some 1000%Q) (Some true) (Some true) (Some 1500%Q) None None None.

(** [{ retries: 5, onRetry: hook }] *)
Definition hookedOptions : RetryOptions nat :=
  mkOptions (Some 5) None None None None None (Some hook) None.

(** [{ retries: 2, shouldRetry: () => false }] *)
Definition decliningOptions : RetryOptions nat :=
  mkOptions (Some 2) None None None None None (Some hook) (Some (fun _ _ => false)).

(** [{ retries: 2, timeout: 1000 }] *)
Definition timeoutOptions : RetryOptions nat :=
  mkOptions (Some 2) None None None None (Some 1000%Q) (Some hook) None.

End Examples.

(** ** Whole runs *)

(** The attempt numbers of the invocations of [fn], in order. *)
Fixpoint callNumbers {E} (tr : list (event E)) : list Z :=
  match tr with
  | [] => []
  | EvCall a :: tr' => a :: callNumbers tr'
  | _ :: tr' => callNumbers tr'
  end.

(** The calls of [shouldRetry], in order. *)
Fixpoint shouldRetryCalls {E} (tr : list (event E)) : list (error E * Z) :=
  match tr with
  | [] => []
  | EvShouldRetry e a :: tr' => (e, a) :: shouldRetryCalls tr'
  | _ :: tr' => shouldRetryCalls tr'
  end.

(** [a; a + 1; ...], [n] numbers. *)
Fixpoint countFrom (a : Z) (n : nat) : list Z :=
  match n with
  | O => []
  | S n' => a :: countFrom (a + 1) n'
  end.

Section Runs.
Context {T E : Type}.
Variable cfg : Config E.
Variable fn : nat -> behaviour T E.
Variable rand : nat -> Q.

(** A run of the loop from the loop head: iterations that go on to a further
    attempt, closed by one that ends the loop. *)
Inductive runFrom : state -> completion T E -> list (event E) -> Prop :=
| RunEnd st c evs :
    ending cfg fn st c evs ->
    runFrom st c evs
| RunRetry st err c tr :
    attempt st + 1 <= c_retries cfg ->
    awaitAttempt (c_timeout cfg) (fn (calls st)) = Failed err ->
    c_shouldRetry cfg err (attempt st + 1) = true ->
    runFrom (retried cfg rand st) c tr ->
    runFrom st c
      (retryEvents cfg err (attempt st + 1) (currentDelay (retried cfg rand st)) ++ tr).

End Runs.

(** Two configurations between which the loop cannot tell the difference:
    [timeout] and [fn] only matter through what each attempt yields,
    [maxDelay] through its truthy value, [onRetry] through being there. *)
Definition alike {T E} (cfg cfg' : Config E) (fn fn' : nat -> behaviour T E) : Prop :=
  c_retries cfg = c_retries cfg' /\
  c_delay cfg = c_delay cfg' /\
  c_backoff cfg = c_backoff cfg' /\
  c_jitter cfg = c_jitter cfg' /\
  truthy (c_maxDelay cfg) = truthy (c_maxDelay cfg') /\
  (c_onRetry cfg = None <-> c_onRetry cfg' = None) /\
  (forall err a, c_shouldRetry cfg err a = c_shouldRetry cfg' err a) /\
  (forall k, awaitAttempt (c_timeout cfg) (fn k) = awaitAttempt (c_timeout cfg') (fn' k)).

(** [{ ...options, timeout: t }] and [{ ...options, maxDelay: m }] *)
Definition withTimeout {E} (t : option Q) (o : RetryOptions E) : RetryOptions E :=
  mkOptions (retries o) (delay o) (backoff o) (jitter o) (maxDelay o) t
            (onRetry o) (shouldRetry o).

Definition withMaxDelay {E} (m : option Q) (o : RetryOptions E) : RetryOptions E :=
  mkOptions (retries o) (delay o) (backoff o) (jitter o) m (timeout o)
            (onRetry o) (shouldRetry o).

(** Non-decreasing. *)
Fixpoint ascending (l : list Q) : Prop :=
  match l with
  | [] => True
  | x :: l' => match l' with [] => True | y :: _ => (x <= y)%Q end /\ ascending l'
  end.

Module Scenarios.
Import Examples.

(** Rejects [n] times, then resolves. *)
Definition failsFirst (n : nat) : nat -> behaviour string nat :=
  fun k => if (k <? n)%nat then Settles 5 (Rejects k) else Settles 5 (Resolves "ok"%string).

(** Never settles. *)
Definition hanging : nat -> behaviour string nat := fun _ => Pending.

(** [{ retries: 5, delay: 500, backoff: true, jitter: true, onRetry: hook }] *)
Definition readmeOptions : RetryOptions nat :=
  mkOptions (Some 5) (Some 500%Q) (Some true) (Some true) None None (Some hook) None.

(** [{ retries: 6, delay: 500, backoff: true, maxDelay: 2000, onRetry: hook }] *)
Definition cappedBackoffOptions : RetryOptions nat :=
  mkOptions (Some 6) (Some 500%Q) (Some true) None (Some 2000%Q) None (Some hook) None.

(** [{ retries: 3, delay: 300, onRetry: hook }] *)
Definition fixedOptions : RetryOptions nat :=
  mkOptions (Some 3) (Some 300%Q) None None None None (Some hook) None.

(** [{ retries: 2, timeout: 1000 }] with and without the timeout. *)
Definition quickOptions (t : option Q) : RetryOptions nat :=
  mkOptions (Some 2) None None None None t (Some hook) None.

End Scenarios.

Module TimerExamples.



End TimerExamples.

(** ** Facts about one iteration *)

Lemma Some_pair_inj {A B} (a a' : A) (b b' : B) :
  Some (a, b) = Some (a', b') -> a = a' /\ b = b'.
Proof. intros H; now inversion H. Qed.

Lemma Qle_bool_false x y : Qle_bool x y = false -> (y < x)%Q.
Proof.
  intros H. apply Qnot_le_lt. intros Hle. apply Qle_bool_iff in Hle. congruence.
Qed.

(** A timer never fires before 1 ms; within the range of [setTimeout] it
    fires after the delay it was given. *)
Lemma timerDelay_ge_1 t : (1 <= timerDelay t)%Q.
Proof.
  unfold timerDelay. destruct (Qle_bool 1 t) eqn:H1; cbn [andb]; [ | lra ].
  destruct (Qle_bool t TIMEOUT_MAX); [ now apply Qle_bool_iff | lra ].
Qed.


Lemma timerDelay_ge t : (t <= TIMEOUT_MAX)%Q -> (t <= timerDelay t)%Q.
Proof.
  intros Ht. unfold timerDelay.
  destruct (Qle_bool 1 t) eqn:H1; cbn [andb].
  - apply Qle_bool_iff in Ht. rewrite Ht. lra.
  - apply Qle_bool_false in H1. lra.
Qed.

(** Turns the boolean tests of the loop into integer comparisons. *)
Ltac tests :=
  repeat match goal with
  | H : (_ >? _) = _ |- _ => rewrite Z.gtb_ltb in H
  | H : (_ <=? _) = true |- _ => apply Z.leb_le in H
  | H : (_ <=? _) = false |- _ => apply Z.leb_gt in H
  | H : (_ <? _) = true |- _ => apply Z.ltb_lt in H
  | H : (_ <? _) = false |- _ => apply Z.ltb_ge in H
  end.

Section IterationFacts.
Context {T E : Type}.
Variable cfg : Config E.
Variable fn : nat -> behaviour T E.
Variable rand : nat -> Q.

Lemma iteration_Continue st st' evs :
  iteration cfg fn rand st = Continue st' evs ->
  exists err,
    attempt st + 1 <= c_retries cfg /\
    awaitAttempt (c_timeout cfg) (fn (calls st)) = Failed err /\
    c_shouldRetry cfg err (attempt st + 1) = true /\
    attempt st' = attempt st + 1 /\
    calls st' = S (calls st) /\
    currentDelay st' =
      waitTime (c_backoff cfg) (c_maxDelay cfg) (c_jitter cfg)
               (rand (draws st)) (currentDelay st) /\
    evs = retryEvents cfg err (attempt st + 1) (currentDelay st').
Proof.
  unfold iteration, afterCall, catchBlock, entered, retryEvents; cbn [attempt currentDelay calls draws].
  destruct (attempt st <=? c_retries cfg) eqn:Hle; [ | discriminate ].
  destruct (awaitAttempt (c_timeout cfg) (fn (calls st))) as [v | err | ]; try discriminate.
  destruct (attempt st + 1 >? c_retries cfg) eqn:Hlast; [ discriminate | ].
  destruct (c_shouldRetry cfg err (attempt st + 1)) eqn:Hsr; cbn [negb]; [ | discriminate ].
  intros H; injection H as <- <-; cbn [attempt currentDelay calls draws].
  exists err. tests.
  repeat split; try reflexivity; try assumption.
Qed.

Lemma iteration_Done st c evs :
  iteration cfg fn rand st = Done c evs -> ending cfg fn st c evs.
Proof.
  unfold iteration, afterCall, catchBlock, entered; cbn [attempt currentDelay calls draws].
  destruct (attempt st <=? c_retries cfg) eqn:Hle.
  - destruct (awaitAttempt (c_timeout cfg) (fn (calls st))) as [v | err | ] eqn:Haw.
    + intros H; injection H as <- <-. tests. now constructor.
    + destruct (attempt st + 1 >? c_retries cfg) eqn:Hlast; tests.
      * intros H; injection H as <- <-. apply EndLastAttempt; [ lia | assumption ].
      * destruct (c_shouldRetry cfg err (attempt st + 1)) eqn:Hsr; cbn [negb]; [ discriminate | ].
        intros H; injection H as <- <-. apply EndDeclined; [ lia | assumption | assumption ].
    + intros H; injection H as <- <-. tests. now constructor.
  - tests. intros H; injection H as <- <-. now constructor.
Qed.

(** The four ways through the loop body, read forwards. *)
Lemma iteration_retry st err :
  attempt st + 1 <= c_retries cfg ->
  awaitAttempt (c_timeout cfg) (fn (calls st)) = Failed err ->
  c_shouldRetry cfg err (attempt st + 1) = true ->
  iteration cfg fn rand st =
    Continue (retried cfg rand st)
             (retryEvents cfg err (attempt st + 1) (currentDelay (retried cfg rand st))).
Proof.
  intros Hle Haw Hsr.
  unfold iteration, afterCall, catchBlock, entered; cbn [attempt currentDelay calls draws].
  rewrite Haw, Hsr.
  replace (attempt st <=? c_retries cfg) with true by (symmetry; apply Z.leb_le; lia).
  replace (attempt st + 1 >? c_retries cfg) with false
    by (symmetry; rewrite Z.gtb_ltb; apply Z.ltb_ge; lia).
  reflexivity.
Qed.

Lemma iteration_success st v :
  attempt st <= c_retries cfg ->
  awaitAttempt (c_timeout cfg) (fn (calls st)) = Succeeded v ->
  iteration cfg fn rand st = Done (Returned v) [EvCall (attempt st + 1)].
Proof.
  intros Hle Haw. unfold iteration. rewrite Haw.
  replace (attempt st <=? c_retries cfg) with true by (symmetry; apply Z.leb_le; lia).
  reflexivity.
Qed.

Lemma iteration_last_failure st err :
  attempt st = c_retries cfg ->
  awaitAttempt (c_timeout cfg) (fn (calls st)) = Failed err ->
  iteration cfg fn rand st = Done (Threw err) [EvCall (attempt st + 1)].
Proof.
  intros Hle Haw.
  unfold iteration, afterCall, catchBlock, entered; cbn [attempt currentDelay calls draws].
  rewrite Haw.
  replace (attempt st <=? c_retries cfg) with true by (symmetry; apply Z.leb_le; lia).
  replace (attempt st + 1 >? c_retries cfg) with true
    by (symmetry; rewrite Z.gtb_ltb; apply Z.ltb_lt; lia).
  reflexivity.
Qed.

Lemma iteration_declined st err :
  attempt st + 1 <= c_retries cfg ->
  awaitAttempt (c_timeout cfg) (fn (calls st)) = Failed err ->
  c_shouldRetry cfg err (attempt st + 1) = false ->
  iteration cfg fn rand st =
    Done (Threw err) [EvCall (attempt st + 1); EvShouldRetry err (attempt st + 1)].
Proof.
  intros Hle Haw Hsr.
  unfold iteration, afterCall, catchBlock, entered; cbn [attempt currentDelay calls draws].
  rewrite Haw, Hsr.
  replace (attempt st <=? c_retries cfg) with true by (symmetry; apply Z.leb_le; lia).
  replace (attempt st + 1 >? c_retries cfg) with false
    by (symmetry; rewrite Z.gtb_ltb; apply Z.ltb_ge; lia).
  reflexivity.
Qed.

(** Unfolding of the loop by one iteration. *)
Lemma loop_S fuel st :
  loop cfg fn rand (S fuel) st =
    match iteration cfg fn rand st with
    | Done c evs => Some (c, evs)
    | Continue st' evs =>
        match loop cfg fn rand fuel st' with
        | Some (c, tr) => Some (c, evs ++ tr)
        | None => None
        end
    end.
Proof. reflexivity. Qed.

(** The loop ends within its budget of iterations: with enough fuel the
    model always yields a completion. *)
Lemma loop_total fuel st :
  (Z.to_nat (c_retries cfg + 1 - attempt st) < fuel)%nat ->
  exists r, loop cfg fn rand fuel st = Some r.
Proof.
  revert st; induction fuel as [ | fuel IH ]; intros st Hfuel; [ lia | ].
  rewrite loop_S.
  destruct (iteration cfg fn rand st) as [st' evs | c evs] eqn:Hit.
  - destruct (iteration_Continue _ _ _ Hit) as (err & Hle & _ & _ & Hat & _).
    destruct (IH st') as [[c tr] Hr]; [ lia | ].
    rewrite Hr. eauto.
  - eauto.
Qed.

Lemma run_total : exists r, run cfg fn rand = Some r.
Proof. apply loop_total. unfold enough, initial; cbn [attempt]. lia. Qed.

(** *** Observations on the events of one iteration *)

Lemma invocations_app (tr1 tr2 : list (event E)) :
  invocations (tr1 ++ tr2) = (invocations tr1 + invocations tr2)%nat.
Proof. unfold invocations. now rewrite filter_app, length_app. Qed.

Lemma sleeps_app (tr1 tr2 : list (event E)) :
  sleeps (tr1 ++ tr2) = sleeps tr1 ++ sleeps tr2.
Proof.
  induction tr1 as [ | [a | e a | e a | w] tr1 IH ]; cbn; now rewrite ?IH.
Qed.

Lemma invocations_retryEvents err a w : invocations (retryEvents cfg err a w) = 1%nat.
Proof. unfold retryEvents. now destruct (c_onRetry cfg). Qed.

Lemma sleeps_retryEvents err a w : sleeps (retryEvents cfg err a w) = [w].
Proof. unfold retryEvents. now destruct (c_onRetry cfg). Qed.

Lemma In_retryEvents ev err a w :
  In ev (retryEvents cfg err a w) ->
  ev = EvCall a \/ ev = EvShouldRetry err a \/ ev = EvOnRetry err a \/ ev = EvSleep w.
Proof.
  unfold retryEvents. destruct (c_onRetry cfg); cbn; intuition auto.
Qed.

(** *** An operation that fails at every attempt *)

(** With [n] retries left the loop makes [n + 1] invocations and throws the
    error of the last of them. *)
Lemma loop_alwaysFailing n :
  alwaysFailing cfg fn -> alwaysRetry cfg ->
  forall fuel st,
    attempt st + Z.of_nat n = c_retries cfg ->
    (n < fuel)%nat ->
    exists err tr,
      loop cfg fn rand fuel st = Some (Threw err, tr) /\
      invocations tr = S n /\
      awaitAttempt (c_timeout cfg) (fn (calls st + n)%nat) = Failed err.
Proof.
  intros Hfail Hretry.
  induction n as [ | n IH ]; intros fuel st Hleft Hfuel;
    (destruct fuel as [ | fuel ]; [ lia | ]); rewrite loop_S;
    destruct (iteration cfg fn rand st) as [st' evs | c evs] eqn:Hit.
  - destruct (iteration_Continue _ _ _ Hit) as (err & Hle & _). lia.
  - destruct (iteration_Done _ _ _ Hit) as [ Hex | v Hle Haw | Hle Haw | err Hle Haw | err Hle Haw Hsr ];
      try (destruct (Hfail (calls st)) as [err' Herr]; congruence); try lia.
    exists err, [EvCall (attempt st + 1)]. rewrite Nat.add_0_r. auto.
  - destruct (iteration_Continue _ _ _ Hit) as (err & Hle & Haw & Hsr & Hat & Hcalls & Hcd & ->).
    destruct (IH fuel st') as (err' & tr & Hrun & Hinv & Hlast); [ lia | lia | ].
    rewrite Hrun. exists err', (retryEvents cfg err (attempt st + 1) (currentDelay st') ++ tr).
    split; [ reflexivity | ]. split.
    + rewrite invocations_app, invocations_retryEvents, Hinv. reflexivity.
    + rewrite <- Hlast, Hcalls. f_equal. f_equal. lia.
  - destruct (iteration_Done _ _ _ Hit) as [ Hex | v Hle Haw | Hle Haw | err Hle Haw | err Hle Haw Hsr ];
      try (destruct (Hfail (calls st)) as [err' Herr]; congruence); try lia.
Qed.

(** *** A negative budget *)

Lemma iteration_negative st :
  c_retries cfg < attempt st ->
  iteration cfg fn rand st = Done (Threw exhaustedError) [].
Proof.
  intros H. unfold iteration.
  destruct (attempt st <=? c_retries cfg) eqn:Hle; [ tests; lia | reflexivity ].
Qed.

Lemma run_negative :
  c_retries cfg < 0 -> run cfg fn rand = Some (Threw exhaustedError, []).
Proof.
  intros H. unfold run, enough. rewrite loop_S, iteration_negative; [ reflexivity | exact H ].
Qed.

Lemma awaitAttempt_not_exhausted t (b : behaviour T E) err :
  awaitAttempt t b = Failed err -> err <> exhaustedError.
Proof.
  unfold awaitAttempt, awaitSettlement, timeoutError, exhaustedError.
  destruct (truthy t), b as [d [v | e] | ]; try destruct (Qle_bool d _);
    intros H; inversion H; discriminate.
Qed.

(** Once the loop condition holds, the loop is left from inside its body. *)
Lemma loop_not_exhausted fuel :
  forall st c tr,
    attempt st <= c_retries cfg ->
    loop cfg fn rand fuel st = Some (c, tr) ->
    c <> Threw exhaustedError /\ tr <> [].
Proof.
  induction fuel as [ | fuel IH ]; intros st c tr Hle; [ discriminate | ].
  rewrite loop_S.
  destruct (iteration cfg fn rand st) as [st' evs | c' evs] eqn:Hit.
  - destruct (iteration_Continue _ _ _ Hit) as (err & Hle' & _ & _ & Hat & _ & _ & ->).
    destruct (loop cfg fn rand fuel st') as [[c'' tr'] | ] eqn:Hrun; [ | discriminate ].
    intros H; injection H as <- <-.
    split; [ | discriminate ].
    apply (IH st' c'' tr'); [ lia | exact Hrun ].
  - intros H; injection H as <- <-.
    destruct (iteration_Done _ _ _ Hit) as [ Hex | v _ Haw | _ Haw | err _ Haw | err _ Haw Hsr ];
      try lia; (split; [ | discriminate ]); try discriminate;
      intros Heq; injection Heq as ->;
      now apply awaitAttempt_not_exhausted in Haw.
Qed.

(** *** Which attempts the hooks see *)

(** [shouldRetry] and [onRetry] are only ever called with an attempt number
    that leaves at least one more attempt in the budget. *)
Lemma hooks_within_budget fuel :
  forall st c tr,
    loop cfg fn rand fuel st = Some (c, tr) ->
    forall err a,
      In (EvShouldRetry err a) tr \/ In (EvOnRetry err a) tr ->
      attempt st < a <= c_retries cfg.
Proof.
  induction fuel as [ | fuel IH ]; intros st c tr; [ discriminate | ].
  rewrite loop_S.
  destruct (iteration cfg fn rand st) as [st' evs | c' evs] eqn:Hit.
  - destruct (iteration_Continue _ _ _ Hit) as (err0 & Hle & _ & _ & Hat & _ & _ & ->).
    destruct (loop cfg fn rand fuel st') as [[c'' tr'] | ] eqn:Hrun; [ | discriminate ].
    intros H err a Hin; apply Some_pair_inj in H as [<- <-].
    assert (Hcases : In (EvShouldRetry err a) tr' \/ In (EvOnRetry err a) tr' \/
                     a = attempt st + 1).
    { destruct Hin as [Hin | Hin]; apply in_app_or in Hin as [Hin | Hin]; auto;
        apply In_retryEvents in Hin as [Heq | [Heq | [Heq | Heq]]];
        try discriminate; injection Heq as _ ->; auto. }
    destruct Hcases as [Hin' | [Hin' | ->]]; [ | | lia ];
      (assert (attempt st' < a <= c_retries cfg) by (eapply IH; eauto)); lia.
  - intros H err a Hin; apply Some_pair_inj in H as [<- <-].
    destruct (iteration_Done _ _ _ Hit) as [ Hex | v _ Haw | _ Haw | err0 _ Haw | err0 Hle Haw Hsr ];
      cbn in Hin; destruct Hin as [Hin | Hin];
      repeat (destruct Hin as [Hin | Hin]; try discriminate); try contradiction.
    injection Hin as _ <-. lia.
Qed.

(** *** Attempt numbers and invocations *)

Lemma synced_index st : synced st -> Z.to_nat (attempt st + 1 - 1) = calls st.
Proof. unfold synced. lia. Qed.

Lemma synced_Continue st st' evs :
  synced st -> iteration cfg fn rand st = Continue st' evs -> synced st'.
Proof.
  intros Hs Hit.
  destruct (iteration_Continue _ _ _ Hit) as (_ & _ & _ & _ & Hat & Hcalls & _).
  unfold synced in *. lia.
Qed.

(** A successful attempt is the last thing that happens. *)
Lemma success_ends fuel :
  forall st c tr k v,
    synced st ->
    loop cfg fn rand fuel st = Some (c, tr) ->
    In (EvCall k) tr ->
    awaitAttempt (c_timeout cfg) (fn (Z.to_nat (k - 1))) = Succeeded v ->
    c = Returned v /\ exists pre, tr = pre ++ [EvCall k].
Proof.
  induction fuel as [ | fuel IH ]; intros st c tr k v Hs; [ discriminate | ].
  rewrite loop_S.
  destruct (iteration cfg fn rand st) as [st' evs | c' evs] eqn:Hit.
  - pose proof (synced_Continue _ _ _ Hs Hit) as Hs'.
    destruct (iteration_Continue _ _ _ Hit) as (err & _ & Haw & _ & _ & _ & _ & ->).
    destruct (loop cfg fn rand fuel st') as [[c'' tr'] | ] eqn:Hrun; [ | discriminate ].
    intros H Hin Hok; apply Some_pair_inj in H as [<- <-].
    apply in_app_or in Hin as [Hin | Hin].
    + apply In_retryEvents in Hin as [Heq | [Heq | [Heq | Heq]]]; try discriminate.
      injection Heq as ->. rewrite (synced_index _ Hs) in Hok. congruence.
    + destruct (IH st' c'' tr' k v Hs' Hrun Hin Hok) as [-> [pre ->]].
      split; [ reflexivity | ].
      eexists. rewrite app_assoc. reflexivity.
  - intros H Hin Hok; apply Some_pair_inj in H as [<- <-].
    destruct (iteration_Done _ _ _ Hit) as [ Hex | v0 _ Haw | _ Haw | err0 _ Haw | err0 Hle Haw Hsr ];
      cbn in Hin; repeat (destruct Hin as [Hin | Hin]; try discriminate); try contradiction;
      injection Hin as <-; rewrite (synced_index _ Hs) in Hok; try congruence.
    split; [ congruence | exists []; reflexivity ].
Qed.

(** The hooks are called for an attempt only with the error that attempt
    failed with. *)
Lemma hooks_after_failure fuel :
  forall st c tr err k,
    synced st ->
    loop cfg fn rand fuel st = Some (c, tr) ->
    In (EvShouldRetry err k) tr \/ In (EvOnRetry err k) tr ->
    awaitAttempt (c_timeout cfg) (fn (Z.to_nat (k - 1))) = Failed err.
Proof.
  induction fuel as [ | fuel IH ]; intros st c tr err k Hs; [ discriminate | ].
  rewrite loop_S.
  destruct (iteration cfg fn rand st) as [st' evs | c' evs] eqn:Hit.
  - pose proof (synced_Continue _ _ _ Hs Hit) as Hs'.
    destruct (iteration_Continue _ _ _ Hit) as (err0 & _ & Haw & _ & _ & _ & _ & ->).
    destruct (loop cfg fn rand fuel st') as [[c'' tr'] | ] eqn:Hrun; [ | discriminate ].
    intros H Hin; apply Some_pair_inj in H as [<- <-].
    assert (Hcases : (In (EvShouldRetry err k) tr' \/ In (EvOnRetry err k) tr') \/
                     (err = err0 /\ k = attempt st + 1)).
    { destruct Hin as [Hin | Hin]; apply in_app_or in Hin as [Hin | Hin]; auto;
        apply In_retryEvents in Hin as [Heq | [Heq | [Heq | Heq]]];
        try discriminate; injection Heq as -> ->; auto. }
    destruct Hcases as [Hin' | [-> ->]].
    + eapply IH; eauto.
    + now rewrite (synced_index _ Hs).
  - intros H Hin; apply Some_pair_inj in H as [<- <-].
    destruct (iteration_Done _ _ _ Hit) as [ Hex | v0 _ Haw | _ Haw | err0 _ Haw | err0 Hle Haw Hsr ];
      cbn in Hin; destruct Hin as [Hin | Hin];
      repeat (destruct Hin as [Hin | Hin]; try discriminate); try contradiction.
    injection Hin as -> <-. now rewrite (synced_index _ Hs).
Qed.

(** A failure of the last attempt in the budget is the last thing that
    happens, and it is what [retry] throws. *)
Lemma last_failure_ends fuel :
  forall st c tr err,
    synced st ->
    loop cfg fn rand fuel st = Some (c, tr) ->
    In (EvCall (c_retries cfg + 1)) tr ->
    awaitAttempt (c_timeout cfg) (fn (Z.to_nat (c_retries cfg))) = Failed err ->
    c = Threw err /\ exists pre, tr = pre ++ [EvCall (c_retries cfg + 1)].
Proof.
  induction fuel as [ | fuel IH ]; intros st c tr err Hs; [ discriminate | ].
  rewrite loop_S.
  destruct (iteration cfg fn rand st) as [st' evs | c' evs] eqn:Hit.
  - pose proof (synced_Continue _ _ _ Hs Hit) as Hs'.
    destruct (iteration_Continue _ _ _ Hit) as (err0 & Hle & Haw & _ & _ & _ & _ & ->).
    destruct (loop cfg fn rand fuel st') as [[c'' tr'] | ] eqn:Hrun; [ | discriminate ].
    intros H Hin Hfail; apply Some_pair_inj in H as [<- <-].
    apply in_app_or in Hin as [Hin | Hin].
    + apply In_retryEvents in Hin as [Heq | [Heq | [Heq | Heq]]]; try discriminate.
      injection Heq as Heq. lia.
    + destruct (IH st' c'' tr' err Hs' Hrun Hin Hfail) as [-> [pre ->]].
      split; [ reflexivity | ].
      eexists. rewrite app_assoc. reflexivity.
  - intros H Hin Hfail; apply Some_pair_inj in H as [<- <-].
    unfold synced in Hs.
    destruct (iteration_Done _ _ _ Hit) as [ Hex | v0 _ Haw | _ Haw | err0 _ Haw | err0 Hle Haw Hsr ];
      cbn in Hin; repeat (destruct Hin as [Hin | Hin]; try discriminate); try contradiction;
      injection Hin as Hin;
      try (replace (Z.to_nat (c_retries cfg)) with (calls st) in Hfail by lia);
      try congruence; try lia.
    split; [ congruence | exists []; cbn; now rewrite Hin ].
Qed.

Lemma synced_initial : synced (initial cfg).
Proof. reflexivity. Qed.

End IterationFacts.

(** ** Properties of [retry] *)

Section Properties.
Context {T E : Type}.
Variable fn : nat -> behaviour T E.
Variable options : RetryOptions E.
Variable rand : nat -> Q.

(** C2. With [retries = R >= 0], the default [shouldRetry] and an operation
    all of whose attempts fail, [fn] is invoked exactly [R + 1] times and
    [retry] throws the error of the last, [R + 1]-th, attempt; without a
    timeout that is the very value the operation rejected with. *)
Theorem alwaysFailing_invoked_R_plus_1 (R : Z) :
  c_retries (destructure options) = R ->
  0 <= R ->
  shouldRetry options = None ->
  (forall k, exists err, awaitAttempt (timeout options) (fn k) = Failed err) ->
  exists err tr,
    retry fn options rand = Some (Threw err, tr) /\
    Z.of_nat (invocations tr) = R + 1 /\
    awaitAttempt (timeout options) (fn (Z.to_nat R)) = Failed err /\
    (forall elapsed reason,
        truthy (timeout options) = None ->
        fn (Z.to_nat R) = Settles elapsed (Rejects reason) ->
        err = OpError reason).
Proof.
  intros HR Hpos Hdefault Hfail.
  destruct (loop_alwaysFailing (destructure options) fn rand (Z.to_nat R))
    with (fuel := enough (destructure options)) (st := initial (destructure options))
    as (err & tr & Hrun & Hinv & Hlast).
  - exact Hfail.
  - intros err a. cbn. now rewrite Hdefault.
  - cbn [initial attempt]. lia.
  - unfold enough. rewrite HR. lia.
  - exists err, tr.
    change (calls (initial (destructure options)) + Z.to_nat R)%nat
      with (Z.to_nat R) in Hlast.
    split; [ exact Hrun | ]. split; [ lia | ]. split; [ exact Hlast | ].
    intros elapsed reason Hno Hfn.
    cbn [destructure c_timeout] in Hlast.
    unfold awaitAttempt in Hlast. rewrite Hno, Hfn in Hlast. cbn in Hlast. congruence.
Qed.

(** C4, as the code has it.  With a negative [retries] the loop body is never
    entered: [fn] is not invoked at all and [retry] throws the error
    "Retry attempts exhausted.". *)
Theorem negative_retries_never_invokes :
  c_retries (destructure options) < 0 ->
  exists tr,
    retry fn options rand = Some (Threw (JsError "Retry attempts exhausted."), tr) /\
    invocations tr = 0%nat.
Proof.
  intros Hneg. exists []. split; [ | reflexivity ].
  now apply run_negative.
Qed.

(** C5. [retry] always ends; it ends with the error "Retry attempts
    exhausted." created after the loop exactly when [retries] is negative,
    and then nothing has happened before: [fn] was never invoked.  That
    error is not one produced by the operation. *)
Theorem exhausted_iff_negative_retries :
  exists c tr,
    retry fn options rand = Some (c, tr) /\
    (c = Threw (JsError "Retry attempts exhausted.")
       <-> c_retries (destructure options) < 0) /\
    (c_retries (destructure options) < 0 ->
     tr = [] /\ invocations tr = 0%nat /\ forall reason, c <> Threw (OpError reason)).
Proof.
  destruct (Z.ltb_spec (c_retries (destructure options)) 0) as [Hneg | Hpos].
  - exists (Threw exhaustedError), []. unfold retry. rewrite run_negative by exact Hneg.
    repeat split; auto; discriminate.
  - destruct (run_total (destructure options) fn rand) as [[c tr] Hrun].
    exists c, tr. split; [ exact Hrun | ].
    destruct (loop_not_exhausted (destructure options) fn rand _
                (initial (destructure options)) c tr Hpos Hrun) as [Hc Htr].
    repeat split; try lia; try discriminate.
    intros Heq. now apply Hc in Heq.
Qed.

(** C6. With [retries >= 1], when the first attempt fails and [shouldRetry]
    answers [false] for it, [fn] has been invoked exactly once, [retry]
    throws the error of that attempt, nothing is waited for and [onRetry] is
    not called. *)
Theorem declined_on_first_attempt (R : Z) (err : error E) :
  c_retries (destructure options) = R ->
  1 <= R ->
  awaitAttempt (timeout options) (fn 0%nat) = Failed err ->
  c_shouldRetry (destructure options) err 1 = false ->
  exists tr,
    retry fn options rand = Some (Threw err, tr) /\
    tr = [EvCall 1; EvShouldRetry err 1] /\
    invocations tr = 1%nat /\
    sleeps tr = [] /\
    onRetryCalls tr = [].
Proof.
  intros HR Hpos Hfail Hsr.
  exists [EvCall 1; EvShouldRetry err 1].
  split; [ | repeat split ].
  unfold retry, run, enough. rewrite loop_S.
  rewrite (iteration_declined _ _ _ _ err); [ reflexivity | | exact Hfail | exact Hsr ].
  cbn [initial attempt]. lia.
Qed.

(** C10. With [retries = R >= 0], neither [shouldRetry] nor [onRetry] is ever
    called for attempt [R + 1]; when that attempt is made and fails, its
    error is thrown and nothing follows the invocation of [fn]. *)
Theorem last_attempt_skips_hooks (R : Z) :
  c_retries (destructure options) = R ->
  0 <= R ->
  exists c tr,
    retry fn options rand = Some (c, tr) /\
    (forall err, ~ In (EvShouldRetry err (R + 1)) tr /\ ~ In (EvOnRetry err (R + 1)) tr) /\
    (forall err,
        In (EvCall (R + 1)) tr ->
        awaitAttempt (timeout options) (fn (Z.to_nat R)) = Failed err ->
        c = Threw err /\ exists pre, tr = pre ++ [EvCall (R + 1)]).
Proof.
  intros HR Hpos.
  destruct (run_total (destructure options) fn rand) as [[c tr] Hrun].
  exists c, tr. split; [ exact Hrun | ]. split.
  - intros err; split; intros Hin.
    + assert (H : attempt (initial (destructure options)) < R + 1 <= c_retries (destructure options))
        by (eapply hooks_within_budget; eauto).
      lia.
    + assert (H : attempt (initial (destructure options)) < R + 1 <= c_retries (destructure options))
        by (eapply hooks_within_budget; eauto).
      lia.
  - intros err Hin Hfail. subst R.
    eapply last_failure_ends; eauto. apply synced_initial.
Qed.

(** C7. An attempt that succeeds ends [retry] with its value: the invocation
    of [fn] is the last event, so no attempt and no wait follow, and
    [onRetry] is not called for it.  With [retries = 5] and a hook, when
    the first attempt fails and the second, once it is made, succeeds, [fn]
    has been invoked twice and [onRetry] once, for attempt 1; the second
    attempt is made exactly when [shouldRetry] accepts the first failure. *)
Theorem success_returns_immediately :
  (exists c tr,
      retry fn options rand = Some (c, tr) /\
      forall k v,
        In (EvCall k) tr ->
        awaitAttempt (timeout options) (fn (Z.to_nat (k - 1))) = Succeeded v ->
        c = Returned v /\
        (exists pre, tr = pre ++ [EvCall k]) /\
        (forall err, ~ In (EvOnRetry err k) tr)) /\
  (forall err v h,
      c_retries (destructure options) = 5 ->
      onRetry options = Some h ->
      awaitAttempt (timeout options) (fn 0%nat) = Failed err ->
      awaitAttempt (timeout options) (fn 1%nat) = Succeeded v ->
      exists c tr,
        retry fn options rand = Some (c, tr) /\
        (In (EvCall 2) tr <-> c_shouldRetry (destructure options) err 1 = true) /\
        (In (EvCall 2) tr ->
         c = Returned v /\
         invocations tr = 2%nat /\
         onRetryCalls tr = [(err, 1)] /\
         exists w,
           sleeps tr = [w] /\
           tr = [EvCall 1; EvShouldRetry err 1; EvOnRetry err 1; EvSleep w; EvCall 2])).
Proof.
  split.
  - destruct (run_total (destructure options) fn rand) as [[c tr] Hrun].
    exists c, tr. split; [ exact Hrun | ].
    intros k v Hin Hok.
    pose proof (synced_initial (destructure options)) as Hs.
    destruct (success_ends _ _ _ _ _ _ _ _ _ Hs Hrun Hin Hok) as [Hc Hpre].
    repeat split; try assumption.
    intros err Hon.
    pose proof (hooks_after_failure _ _ _ _ _ _ _ _ _ Hs Hrun (or_intror Hon)) as Hfail.
    cbn [destructure c_timeout] in Hok, Hfail. congruence.
  - intros err v h HR Hhook Hfail Hok.
    set (cfg := destructure options) in *.
    assert (Hfuel : enough cfg = 7%nat) by (unfold enough; now rewrite HR).
    destruct (c_shouldRetry cfg err 1) eqn:Hsr.
    + exists (Returned v),
        [EvCall 1; EvShouldRetry err 1; EvOnRetry err 1;
         EvSleep (currentDelay (retried cfg rand (initial cfg))); EvCall 2].
      split; [ | split ].
      * unfold retry, run. fold cfg. rewrite Hfuel.
        rewrite loop_S, (iteration_retry _ _ _ _ err);
          [ | cbn [initial attempt]; lia | exact Hfail | exact Hsr ].
        rewrite loop_S, (iteration_success _ _ _ _ v);
          [ | cbn [retried initial attempt]; lia | exact Hok ].
        unfold retryEvents. cbn [c_onRetry cfg destructure]. rewrite Hhook. reflexivity.
      * split; [ reflexivity | ]. intros _. cbn. auto 6.
      * intros _. repeat split. eexists. split; reflexivity.
    + exists (Threw err), [EvCall 1; EvShouldRetry err 1].
      assert (Hnot : ~ In (EvCall 2) [EvCall 1; EvShouldRetry err 1 : event E])
        by (cbn; intros [H | [H | []]]; discriminate).
      split; [ | split ].
      * unfold retry, run. fold cfg. rewrite Hfuel.
        rewrite loop_S, (iteration_declined _ _ _ _ err);
          [ reflexivity | cbn [initial attempt]; lia | exact Hfail | exact Hsr ].
      * split; [ intros Hin; now apply Hnot in Hin | discriminate ].
      * intros Hin. now apply Hnot in Hin.
Qed.

End Properties.

(** ** Properties of the delay computation *)

Lemma waitTime_reference cur backoff maxDelay jitter r :
  waitTime backoff maxDelay jitter r cur =
    Spec.computeNextDelay cur backoff (truthy maxDelay) jitter (randomFactor r).
Proof.
  unfold waitTime, cappedWait, Spec.computeNextDelay, Spec.preJitter,
    Spec.scale, Spec.clamp, Spec.double.
  destruct (truthy maxDelay), jitter, backoff; reflexivity.
Qed.

Lemma cappedWait_reference cur backoff maxDelay :
  cappedWait backoff maxDelay cur = Spec.preJitter cur backoff (truthy maxDelay).
Proof.
  unfold cappedWait, Spec.preJitter, Spec.clamp, Spec.double.
  destruct (truthy maxDelay), backoff; reflexivity.
Qed.

Lemma randomFactor_bounds r :
  (0 <= r < 1)%Q -> (8 # 10 <= randomFactor r)%Q /\ (randomFactor r < 12 # 10)%Q.
Proof. unfold randomFactor. intros [H0 H1]. split; lra. Qed.

Lemma Qgtb_true x y : Qgtb x y = true <-> (y < x)%Q.
Proof.
  unfold Qgtb. rewrite negb_true_iff.
  split.
  - intros H. apply Qnot_le_lt. intros Hle. apply Qle_bool_iff in Hle. congruence.
  - intros H. destruct (Qle_bool x y) eqn:Hb; [ | reflexivity ].
    apply Qle_bool_iff in Hb. lra.
Qed.

(** C1, as the code has it.  With [delay = 100], [backoff = true],
    [retries = 3], no jitter and no cap, an operation that fails at every
    attempt is waited for 200, 400 and 800 ms: the delay is doubled before
    every wait, the first included. *)
Theorem backoff_waits_200_400_800 {T E} (fn : nat -> behaviour T E) (rand : nat -> Q)
    (j : option bool) (t : option Q) (h : option (error E -> Z -> unit)) :
  orDefault false j = false ->
  (forall k, exists err, awaitAttempt t (fn k) = Failed err) ->
  exists err tr,
    retry fn (mkOptions (Some 3) (Some 100%Q) (Some true) j None t h None) rand
      = Some (Threw err, tr) /\
    sleeps tr = [200%Q; 400%Q; 800%Q].
Proof.
  intros Hj Hfail.
  destruct (Hfail 0%nat) as [e0 H0], (Hfail 1%nat) as [e1 H1],
    (Hfail 2%nat) as [e2 H2], (Hfail 3%nat) as [e3 H3].
  set (cfg := destructure (mkOptions (Some 3) (Some 100%Q) (Some true) j None t h None)).
  exists e3. eexists. split.
  - unfold retry, run. fold cfg. change (enough cfg) with 5%nat.
    rewrite loop_S, (iteration_retry _ _ _ _ e0); [ | cbn; lia | exact H0 | reflexivity ].
    rewrite loop_S, (iteration_retry _ _ _ _ e1); [ | cbn; lia | exact H1 | reflexivity ].
    rewrite loop_S, (iteration_retry _ _ _ _ e2); [ | cbn; lia | exact H2 | reflexivity ].
    rewrite loop_S, (iteration_last_failure _ _ _ _ e3); [ | cbn; lia | exact H3 ].
    reflexivity.
  - rewrite !sleeps_app, !sleeps_retryEvents.
    cbn [retried currentDelay initial cfg destructure c_backoff c_maxDelay c_jitter c_delay
           orDefault backoff maxDelay jitter delay sleeps app].
    rewrite Hj. reflexivity.
Qed.

(** C3, as the code has it.  The wait computed before a retry is the
    reference computation -- double if [backoff], then clamp to [maxDelay],
    then scale by the jitter factor if [jitter] -- where a [maxDelay] of 0
    counts as not set.  The result is both what is waited for and the
    [currentDelay] of the next iteration.  With [delay = 1000],
    [backoff = true] and [maxDelay = 1500] the pre-jitter delay of the second
    retry is 1500, and a jittered wait may exceed [maxDelay]. *)
Theorem delay_step_is_reference :
  (forall {T E} (cfg : Config E) (fn : nat -> behaviour T E) rand st st' evs,
      iteration cfg fn rand st = Continue st' evs ->
      let next :=
        Spec.computeNextDelay (currentDelay st) (c_backoff cfg)
          (truthy (c_maxDelay cfg)) (c_jitter cfg) (randomFactor (rand (draws st))) in
      sleeps evs = [next] /\ currentDelay st' = next) /\
  (forall jitter r,
      (0 <= r < 1)%Q ->
      cappedWait true (Some 1500%Q) (waitTime true (Some 1500%Q) jitter r 1000%Q)
        = 1500%Q) /\
  (exists r,
      (0 <= r < 1)%Q /\
      (1500 < waitTime true (Some 1500%Q) true r 1000%Q)%Q).
Proof.
  split; [ | split ].
  - intros T E cfg fn rand st st' evs Hit.
    destruct (iteration_Continue _ _ _ _ _ _ Hit) as (err & _ & _ & _ & _ & _ & Hcd & ->).
    cbv zeta. rewrite sleeps_retryEvents, Hcd, waitTime_reference. auto.
  - intros jitter r Hr.
    destruct (randomFactor_bounds r Hr) as [Hlo Hhi].
    unfold cappedWait. change (truthy (Some 1500%Q)) with (Some 1500%Q). cbv iota beta.
    match goal with
    | |- (if ?b then _ else _) = _ =>
        assert (Hgt : b = true); [ | now rewrite Hgt ]
    end.
    apply Qgtb_true.
    unfold waitTime, cappedWait. change (truthy (Some 1500%Q)) with (Some 1500%Q).
    cbv iota beta.
    assert (Hcap : Qgtb (1000 * 2) 1500 = true) by reflexivity.
    rewrite Hcap. destruct jitter; lra.
  - exists (3 # 4)%Q. split; [ lra | ]. vm_compute. reflexivity.
Qed.

(** C8. With [jitter = true] and a random number in [0, 1), the wait is the
    pre-jitter value -- the delay after doubling and clamping -- times a
    factor between 0.8 and 1.2; for a non-negative pre-jitter value it lies
    between 0.8 and 1.2 times that value, bounds included. *)
Theorem jitter_within_bounds {T E} (cfg : Config E) (fn : nat -> behaviour T E)
    rand st st' evs :
  c_jitter cfg = true ->
  (0 <= rand (draws st) < 1)%Q ->
  iteration cfg fn rand st = Continue st' evs ->
  let pre := cappedWait (c_backoff cfg) (c_maxDelay cfg) (currentDelay st) in
  exists w f,
    sleeps evs = [w] /\
    w = (pre * f)%Q /\
    (8 # 10 <= f)%Q /\ (f <= 12 # 10)%Q /\
    ((0 <= pre)%Q -> ((8 # 10) * pre <= w)%Q /\ (w <= (12 # 10) * pre)%Q).
Proof.
  intros Hj Hr Hit pre.
  destruct (iteration_Continue _ _ _ _ _ _ Hit) as (err & _ & _ & _ & _ & _ & Hcd & ->).
  destruct (randomFactor_bounds _ Hr) as [Hlo Hhi].
  exists (currentDelay st'), (randomFactor (rand (draws st))).
  rewrite sleeps_retryEvents.
  assert (Hw : currentDelay st' = (pre * randomFactor (rand (draws st)))%Q).
  { rewrite Hcd. unfold waitTime. rewrite Hj. reflexivity. }
  split; [ reflexivity | ]. split; [ exact Hw | ].
  split; [ exact Hlo | ]. split; [ lra | ].
  intros Hpre. rewrite Hw. split; nra.
Qed.

(** ** The properties at concrete operations and options *)

Import Examples.

(** [{ retries: 3, delay: 100, backoff: true }] on an operation that always
    rejects: four invocations, and the fourth rejection is thrown. *)
Lemma alwaysFailing_invoked_R_plus_1_example :
  exists err tr,
    retry rejecting backoffOptions (constRandom 0) = Some (Threw err, tr) /\
    Z.of_nat (invocations tr) = 3 + 1 /\
    awaitAttempt (timeout backoffOptions) (rejecting (Z.to_nat 3)) = Failed err /\
    (forall elapsed reason,
        truthy (timeout backoffOptions) = None ->
        rejecting (Z.to_nat 3) = Settles elapsed (Rejects reason) ->
        err = OpError reason).
Proof.
  apply (alwaysFailing_invoked_R_plus_1 rejecting backoffOptions (constRandom 0) 3).
  - reflexivity.
  - lia.
  - reflexivity.
  - intros k. eexists. reflexivity.
Defined.

(** The waits of that run. *)
Lemma backoff_waits_200_400_800_example :
  exists err tr,
    retry rejecting backoffOptions (constRandom 0) = Some (Threw err, tr) /\
    sleeps tr = [200%Q; 400%Q; 800%Q].
Proof.
  apply (backoff_waits_200_400_800 rejecting (constRandom 0) None None None).
  - reflexivity.
  - intros k. eexists. reflexivity.
Defined.

(** The waits of that run are not 100, 200, 400. *)
Lemma backoff_waits_not_100_200_400 :
  exists c tr,
    retry rejecting backoffOptions (constRandom 0) = Some (c, tr) /\
    ~ Forall2 Qeq (sleeps tr) [100%Q; 200%Q; 400%Q].
Proof.
  eexists. eexists. split; [ vm_compute; reflexivity | ].
  intros H. inversion H as [ | x y l l' Hxy _ ]; subst.
  vm_compute in Hxy. discriminate.
Qed.

(** [{ retries: 1, delay: 100, maxDelay: 0 }]: the reference computation of
    the specification clamps the wait to 0, the code waits 100 ms. *)
Lemma zero_maxDelay_is_no_cap :
  exists c tr,
    retry rejecting zeroCapOptions (constRandom 0) = Some (c, tr) /\
    sleeps tr = [100%Q] /\
    ~ Forall2 Qeq (sleeps tr)
        [Spec.computeNextDelay 100 false (Some 0%Q) false (randomFactor 0)].
Proof.
  eexists. eexists. split; [ vm_compute; reflexivity | ].
  split; [ reflexivity | ].
  intros H. inversion H as [ | x y l l' Hxy _ ]; subst.
  vm_compute in Hxy. discriminate.
Qed.

(** The first retry under
    [{ retries: 2, delay: 1000, backoff: true, jitter: true, maxDelay: 1500 }]
    with a random number of 0.75: the wait is 1650 ms. *)
Lemma delay_step_is_reference_example :
  (sleeps (retryEvents (destructure cappedOptions) (OpError 0%nat) 1
             (currentDelay (retried (destructure cappedOptions) (constRandom (3 # 4))
                                    (initial (destructure cappedOptions)))))
     = [Spec.computeNextDelay 1000 true (Some 1500%Q) true (randomFactor (3 # 4))] /\
   currentDelay (retried (destructure cappedOptions) (constRandom (3 # 4))
                         (initial (destructure cappedOptions)))
     = Spec.computeNextDelay 1000 true (Some 1500%Q) true (randomFactor (3 # 4))) /\
  cappedWait true (Some 1500%Q) (waitTime true (Some 1500%Q) true (3 # 4) 1000%Q)
    = 1500%Q.
Proof.
  split.
  - apply (proj1 delay_step_is_reference _ _ (destructure cappedOptions) rejecting
             (constRandom (3 # 4)) (initial (destructure cappedOptions))
             (retried (destructure cappedOptions) (constRandom (3 # 4))
                      (initial (destructure cappedOptions)))
             (retryEvents (destructure cappedOptions) (OpError 0%nat) 1
                (currentDelay (retried (destructure cappedOptions) (constRandom (3 # 4))
                                       (initial (destructure cappedOptions)))))).
    reflexivity.
  - apply (proj1 (proj2 delay_step_is_reference) true (3 # 4)%Q). lra.
Defined.

Lemma jitter_within_bounds_example :
  exists w f,
    sleeps (retryEvents (destructure cappedOptions) (OpError 0%nat) 1
              (currentDelay (retried (destructure cappedOptions) (constRandom (3 # 4))
                                     (initial (destructure cappedOptions)))))
      = [w] /\
    w = (cappedWait true (Some 1500%Q) 1000 * f)%Q /\
    (8 # 10 <= f)%Q /\ (f <= 12 # 10)%Q /\
    ((0 <= cappedWait true (Some 1500%Q) 1000)%Q ->
     ((8 # 10) * cappedWait true (Some 1500%Q) 1000 <= w)%Q /\
     (w <= (12 # 10) * cappedWait true (Some 1500%Q) 1000)%Q).
Proof.
  apply (jitter_within_bounds (destructure cappedOptions) rejecting
           (constRandom (3 # 4)) (initial (destructure cappedOptions))
           (retried (destructure cappedOptions) (constRandom (3 # 4))
                    (initial (destructure cappedOptions)))
           (retryEvents (destructure cappedOptions) (OpError 0%nat) 1
              (currentDelay (retried (destructure cappedOptions) (constRandom (3 # 4))
                                     (initial (destructure cappedOptions)))))).
  - reflexivity.
  - unfold constRandom. lra.
  - reflexivity.
Defined.

(** [{ retries: -1 }]: no invocation, not one. *)
Lemma negative_retries_not_invoked_once :
  exists c tr,
    retry rejecting negativeOptions (constRandom 0) = Some (c, tr) /\
    invocations tr <> 1%nat.
Proof.
  eexists. eexists. split; [ vm_compute; reflexivity | ].
  cbn. discriminate.
Qed.

Lemma negative_retries_never_invokes_example :
  exists tr,
    retry rejecting negativeOptions (constRandom 0)
      = Some (Threw (JsError "Retry attempts exhausted."), tr) /\
    invocations tr = 0%nat.
Proof.
  apply (negative_retries_never_invokes rejecting negativeOptions (constRandom 0)).
  cbn. lia.
Defined.

Lemma exhausted_iff_negative_retries_example :
  exists c tr,
    retry rejecting negativeOptions (constRandom 0) = Some (c, tr) /\
    c = Threw (JsError "Retry attempts exhausted.") /\
    tr = [] /\ invocations tr = 0%nat.
Proof.
  destruct (exhausted_iff_negative_retries rejecting negativeOptions (constRandom 0))
    as (c & tr & Hrun & Hiff & Hneg).
  assert (Hlt : c_retries (destructure negativeOptions) < 0) by (cbn; lia).
  exists c, tr. split; [ exact Hrun | ].
  split; [ apply Hiff; exact Hlt | ].
  destruct (Hneg Hlt) as (Htr & Hinv & _). split; assumption.
Defined.

(** [{ retries: 2, shouldRetry: () => false }] *)
Lemma declined_on_first_attempt_example :
  exists tr,
    retry rejecting decliningOptions (constRandom 0) = Some (Threw (OpError 0%nat), tr) /\
    tr = [EvCall 1; EvShouldRetry (OpError 0%nat) 1] /\
    invocations tr = 1%nat /\
    sleeps tr = [] /\
    onRetryCalls tr = [].
Proof.
  apply (declined_on_first_attempt rejecting decliningOptions (constRandom 0) 2).
  - reflexivity.
  - lia.
  - reflexivity.
  - reflexivity.
Defined.

(** [{ retries: 5, onRetry: hook }] on an operation that succeeds at the
    second attempt. *)
Lemma success_returns_immediately_example :
  exists c tr,
    retry secondTimeLucky hookedOptions (constRandom 0) = Some (c, tr) /\
    c = Returned "ok"%string /\
    invocations tr = 2%nat /\
    onRetryCalls tr = [(OpError 0%nat, 1)] /\
    exists w,
      sleeps tr = [w] /\
      tr = [EvCall 1; EvShouldRetry (OpError 0%nat) 1; EvOnRetry (OpError 0%nat) 1;
            EvSleep w; EvCall 2].
Proof.
  destruct (proj2 (success_returns_immediately secondTimeLucky hookedOptions (constRandom 0))
              (OpError 0%nat) "ok"%string hook)
    as (c & tr & Hrun & Hiff & Hthen); try reflexivity.
  exists c, tr. split; [ exact Hrun | ].
  apply Hthen, Hiff. reflexivity.
Defined.

Lemma last_attempt_skips_hooks_example :
  exists c tr,
    retry rejecting backoffOptions (constRandom 0) = Some (c, tr) /\
    (forall err, ~ In (EvShouldRetry err (3 + 1)) tr /\ ~ In (EvOnRetry err (3 + 1)) tr) /\
    (forall err,
        In (EvCall (3 + 1)) tr ->
        awaitAttempt (timeout backoffOptions) (rejecting (Z.to_nat 3)) = Failed err ->
        c = Threw err /\ exists pre, tr = pre ++ [EvCall (3 + 1)]).
Proof.
  apply (last_attempt_skips_hooks rejecting backoffOptions (constRandom 0) 3).
  - reflexivity.
  - lia.
Defined.

(** ** The shape of a whole run *)

Section RunFacts.
Context {T E : Type}.
Variable cfg : Config E.
Variable fn : nat -> behaviour T E.
Variable rand : nat -> Q.

Lemma iteration_Continue_retried st st' evs :
  iteration cfg fn rand st = Continue st' evs -> st' = retried cfg rand st.
Proof.
  unfold iteration, afterCall, catchBlock, entered, retried;
    cbn [attempt currentDelay calls draws].
  destruct (attempt st <=? c_retries cfg); [ | discriminate ].
  destruct (awaitAttempt (c_timeout cfg) (fn (calls st))) as [v | err | ]; try discriminate.
  destruct (attempt st + 1 >? c_retries cfg); [ discriminate | ].
  destruct (c_shouldRetry cfg err (attempt st + 1)); cbn [negb]; [ | discriminate ].
  intros H; now injection H as <- _.
Qed.

Lemma loop_runFrom fuel :
  forall st c tr,
    loop cfg fn rand fuel st = Some (c, tr) -> runFrom cfg fn rand st c tr.
Proof.
  induction fuel as [ | fuel IH ]; intros st c tr; [ discriminate | ].
  rewrite loop_S.
  destruct (iteration cfg fn rand st) as [st' evs | c' evs] eqn:Hit.
  - pose proof (iteration_Continue_retried _ _ _ Hit) as ->.
    destruct (iteration_Continue _ _ _ _ _ _ Hit) as (err & Hle & Haw & Hsr & _ & _ & _ & ->).
    destruct (loop cfg fn rand fuel (retried cfg rand st)) as [[c'' tr'] | ] eqn:Hrun;
      [ | discriminate ].
    intros H; apply Some_pair_inj in H as [<- <-].
    apply RunRetry; auto.
  - intros H; apply Some_pair_inj in H as [<- <-].
    apply RunEnd. now apply (iteration_Done cfg fn rand).
Qed.

Lemma run_runFrom :
  exists c tr, run cfg fn rand = Some (c, tr) /\ runFrom cfg fn rand (initial cfg) c tr.
Proof.
  destruct (run_total cfg fn rand) as [[c tr] Hrun].
  exists c, tr. split; [ exact Hrun | ]. eapply loop_runFrom, Hrun.
Qed.

Lemma callNumbers_app (tr1 tr2 : list (event E)) :
  callNumbers (tr1 ++ tr2) = callNumbers tr1 ++ callNumbers tr2.
Proof.
  induction tr1 as [ | [a | e a | e a | w] tr1 IH ]; cbn; now rewrite ?IH.
Qed.

Lemma shouldRetryCalls_app (tr1 tr2 : list (event E)) :
  shouldRetryCalls (tr1 ++ tr2) = shouldRetryCalls tr1 ++ shouldRetryCalls tr2.
Proof.
  induction tr1 as [ | [a | e a | e a | w] tr1 IH ]; cbn; now rewrite ?IH.
Qed.

Lemma onRetryCalls_append (tr1 tr2 : list (event E)) :
  onRetryCalls (tr1 ++ tr2) = onRetryCalls tr1 ++ onRetryCalls tr2.
Proof.
  induction tr1 as [ | [a | e a | e a | w] tr1 IH ]; cbn; now rewrite ?IH.
Qed.

Lemma callNumbers_retryEvents err a w : callNumbers (retryEvents cfg err a w) = [a].
Proof. unfold retryEvents. now destruct (c_onRetry cfg). Qed.

Lemma shouldRetryCalls_retryEvents err a w :
  shouldRetryCalls (retryEvents cfg err a w) = [(err, a)].
Proof. unfold retryEvents. now destruct (c_onRetry cfg). Qed.

Lemma onRetryCalls_of_retryEvents err a w :
  onRetryCalls (retryEvents cfg err a w) =
    match c_onRetry cfg with Some _ => [(err, a)] | None => [] end.
Proof. unfold retryEvents. now destruct (c_onRetry cfg). Qed.

(** Rewrites the observations of a trace that starts with the events of a
    retried attempt. *)
Ltac observe :=
  rewrite ?invocations_app, ?sleeps_app, ?callNumbers_app, ?shouldRetryCalls_app,
    ?onRetryCalls_append, ?invocations_retryEvents, ?sleeps_retryEvents,
    ?callNumbers_retryEvents, ?shouldRetryCalls_retryEvents,
    ?onRetryCalls_of_retryEvents.

(** *** Counting *)

Lemma runFrom_budget st c tr :
  runFrom cfg fn rand st c tr ->
  attempt st <= c_retries cfg ->
  (1 <= invocations tr)%nat /\
  Z.of_nat (invocations tr) <= c_retries cfg - attempt st + 1.
Proof.
  induction 1 as [ st c evs Hend | st err c tr Hle Haw Hsr Hrun IH ]; intros Hin.
  - destruct Hend; cbn; lia.
  - observe. cbn [retried attempt] in IH. destruct IH as [IH1 IH2]; [ lia | ]. lia.
Qed.

Lemma runFrom_accounts st c tr :
  runFrom cfg fn rand st c tr ->
  attempt st <= c_retries cfg ->
  invocations tr = S (List.length (sleeps tr)) /\
  List.length (onRetryCalls tr) =
    match c_onRetry cfg with
    | Some _ => List.length (sleeps tr)
    | None => O
    end /\
  (List.length (sleeps tr) <= List.length (shouldRetryCalls tr)
     <= S (List.length (sleeps tr)))%nat.
Proof.
  induction 1 as [ st c evs Hend | st err c tr Hle Haw Hsr Hrun IH ]; intros Hin.
  - destruct Hend; cbn; destruct (c_onRetry cfg); repeat split; lia.
  - observe. cbn [retried attempt] in IH. destruct IH as (IH1 & IH2 & IH3); [ lia | ].
    rewrite !length_app, IH1. destruct (c_onRetry cfg); cbn [List.length Nat.add] in *;
      repeat split; lia.
Qed.

(** *** Numbering *)

Lemma runFrom_numbering st c tr :
  runFrom cfg fn rand st c tr ->
  callNumbers tr = countFrom (attempt st + 1) (invocations tr) /\
  map snd (shouldRetryCalls tr)
    = countFrom (attempt st + 1) (List.length (shouldRetryCalls tr)) /\
  (c_onRetry cfg <> None ->
   map snd (onRetryCalls tr)
     = countFrom (attempt st + 1) (List.length (onRetryCalls tr))).
Proof.
  induction 1 as [ st c evs Hend | st err c tr Hle Haw Hsr Hrun IH ].
  - destruct Hend; cbn; repeat split; reflexivity.
  - observe. cbn [retried attempt] in IH. destruct IH as (IH1 & IH2 & IH3).
    cbn [app invocations List.length map snd countFrom Nat.add].
    rewrite IH1, IH2 at 1. repeat split.
    intros Hhook. destruct (c_onRetry cfg); [ | congruence ].
    cbn [app List.length map snd countFrom]. now rewrite IH3 at 1.
Qed.

(** *** Where the result comes from *)

Lemma synced_retried st : synced st -> synced (retried cfg rand st).
Proof. unfold synced, retried; cbn [attempt calls]. lia. Qed.

(** The result of a run is the outcome of the last invocation; the
    invocations before it failed and were accepted by [shouldRetry]. *)
Lemma runFrom_outcome st c tr :
  runFrom cfg fn rand st c tr ->
  synced st ->
  attempt st <= c_retries cfg ->
  (forall k, (calls st <= k < calls st + pred (invocations tr))%nat ->
     exists err,
       awaitAttempt (c_timeout cfg) (fn k) = Failed err /\
       c_shouldRetry cfg err (Z.of_nat k + 1) = true) /\
  awaitAttempt (c_timeout cfg) (fn (calls st + pred (invocations tr))%nat) =
    match c with
    | Returned v => Succeeded v
    | Threw err => Failed err
    | NeverSettles => Stuck
    end.
Proof.
  induction 1 as [ st c evs Hend | st err c tr Hle Haw Hsr Hrun IH ]; intros Hs Hin.
  - destruct Hend; cbn [invocations filter isCall List.length pred];
      rewrite ?Nat.add_0_r; try lia; (split; [ intros k Hk; lia | assumption ]).
  - destruct (runFrom_budget _ _ _ Hrun) as [Hpos _]; [ cbn [retried attempt]; lia | ].
    destruct IH as [IHf IHl]; [ now apply synced_retried | cbn [retried attempt]; lia | ].
    observe. cbn [retried calls] in IHf, IHl.
    replace (calls st + pred (1 + invocations tr))%nat
      with (S (calls st) + pred (invocations tr))%nat by lia.
    split; [ | exact IHl ].
    intros k Hk. destruct (Nat.eq_dec k (calls st)) as [-> | Hne].
    + exists err. split; [ exact Haw | ]. unfold synced in Hs. now rewrite Hs.
    + apply IHf. lia.
Qed.

(** *** The timeout bounds every attempt *)

Lemma awaitAttempt_settles t (b : behaviour T E) :
  truthy t <> None -> awaitAttempt t b <> Stuck.
Proof.
  unfold awaitAttempt, awaitSettlement. destruct (truthy t); [ intros _ | congruence ].
  destruct b as [d [v | e] | ]; try destruct (Qle_bool d _); discriminate.
Qed.

Lemma runFrom_settles st c tr :
  runFrom cfg fn rand st c tr -> truthy (c_timeout cfg) <> None -> c <> NeverSettles.
Proof.
  induction 1 as [ st c evs Hend | st err c tr Hle Haw Hsr Hrun IH ]; intros Ht; auto.
  destruct Hend; try discriminate.
  exfalso. eapply awaitAttempt_settles; eauto.
Qed.

(** *** The waits *)

Lemma Qgtb_false x y : Qgtb x y = false <-> (x <= y)%Q.
Proof.
  unfold Qgtb. rewrite negb_false_iff. apply Qle_bool_iff.
Qed.

Lemma cappedWait_le b M m d :
  truthy M = Some m -> (cappedWait b M d <= m)%Q.
Proof.
  intros HM. unfold cappedWait. rewrite HM.
  destruct (Qgtb _ m) eqn:Hg; [ lra | now apply Qgtb_false ].
Qed.

Lemma cappedWait_uncapped b M d :
  truthy M = None -> cappedWait b M d = if b then (d * 2)%Q else d.
Proof. intros HM. unfold cappedWait. now rewrite HM. Qed.

Lemma cappedWait_fixed M d :
  cappedWait false M (cappedWait false M d) = cappedWait false M d.
Proof.
  unfold cappedWait. destruct (truthy M) as [m | ]; [ | reflexivity ].
  destruct (Qgtb d m) eqn:Hg.
  - assert (Hmm : Qgtb m m = false) by (apply Qgtb_false; lra). now rewrite Hmm.
  - now rewrite Hg.
Qed.

(** Without jitter the first wait of a run is the capped delay. *)
Lemma runFrom_first_wait st c tr :
  runFrom cfg fn rand st c tr ->
  c_jitter cfg = false ->
  match sleeps tr with
  | [] => True
  | w :: _ => w = cappedWait (c_backoff cfg) (c_maxDelay cfg) (currentDelay st)
  end.
Proof.
  intros Hrun Hj. destruct Hrun as [ st c evs Hend | st err c tr Hle Haw Hsr Hrun ].
  - destruct Hend; exact I.
  - observe. cbn [app retried currentDelay]. unfold waitTime. now rewrite Hj.
Qed.

Lemma runFrom_capped st c tr m :
  runFrom cfg fn rand st c tr ->
  truthy (c_maxDelay cfg) = Some m ->
  (c_jitter cfg = false -> Forall (fun w => (w <= m)%Q) (sleeps tr)) /\
  ((forall i, (0 <= rand i < 1)%Q) -> (0 <= m)%Q ->
   Forall (fun w => (w <= (12 # 10) * m)%Q) (sleeps tr)).
Proof.
  intros Hrun HM.
  induction Hrun as [ st c evs Hend | st err c tr Hle Haw Hsr Hrun IH ].
  - destruct Hend; cbn; split; intros; constructor.
  - observe. cbn [app retried currentDelay]. destruct IH as [IH1 IH2].
    pose proof (cappedWait_le (c_backoff cfg) _ m (currentDelay st) HM) as Hcap.
    split.
    + intros Hj. constructor; [ | auto ]. unfold waitTime. now rewrite Hj.
    + intros Hr Hm. constructor; [ | auto ]. unfold waitTime.
      destruct (c_jitter cfg); [ | lra ].
      destruct (randomFactor_bounds _ (Hr (draws st))) as [Hlo Hhi].
      set (pre := cappedWait (c_backoff cfg) (c_maxDelay cfg) (currentDelay st)) in *.
      destruct (Qlt_le_dec pre 0); nra.
Qed.

Lemma runFrom_fixed st c tr :
  runFrom cfg fn rand st c tr ->
  c_backoff cfg = false ->
  c_jitter cfg = false ->
  Forall (fun w => w = cappedWait false (c_maxDelay cfg) (currentDelay st)) (sleeps tr).
Proof.
  intros Hrun Hb Hj.
  induction Hrun as [ st c evs Hend | st err c tr Hle Haw Hsr Hrun IH ].
  - destruct Hend; cbn; constructor.
  - observe. cbn [app retried currentDelay] in *.
    unfold waitTime in *. rewrite Hj, Hb in *.
    constructor; [ reflexivity | ].
    now rewrite cappedWait_fixed in IH.
Qed.

Lemma pow2_step (k : nat) :
  (2 ^ (Z.of_nat (S k) + 1) == 2 * 2 ^ (Z.of_nat k + 1))%Q.
Proof.
  replace (Z.of_nat (S k) + 1) with (1 + (Z.of_nat k + 1)) by lia.
  rewrite Qpower_plus by (intros H; discriminate H). reflexivity.
Qed.

Lemma runFrom_doubling st c tr :
  runFrom cfg fn rand st c tr ->
  c_backoff cfg = true ->
  c_jitter cfg = false ->
  truthy (c_maxDelay cfg) = None ->
  forall k w,
    nth_error (sleeps tr) k = Some w ->
    (w == currentDelay st * 2 ^ (Z.of_nat k + 1))%Q.
Proof.
  intros Hrun Hb Hj HM.
  induction Hrun as [ st c evs Hend | st err c tr Hle Haw Hsr Hrun IH ]; intros k w.
  - destruct Hend; cbn; destruct k; discriminate.
  - observe. cbn [app retried currentDelay] in *.
    unfold waitTime in *. rewrite Hj, (cappedWait_uncapped _ _ _ HM), Hb in *.
    destruct k as [ | k ]; cbn [nth_error].
    + intros H; injection H as <-. cbn. lra.
    + intros H. rewrite (IH k w H), pow2_step. ring.
Qed.

Lemma ascending_cons x l :
  ascending l -> match l with [] => True | y :: _ => (x <= y)%Q end -> ascending (x :: l).
Proof. intros Hl Hx. cbn [ascending]. now split. Qed.

Lemma runFrom_ascending st c tr :
  runFrom cfg fn rand st c tr ->
  c_backoff cfg = true ->
  c_jitter cfg = false ->
  (forall m, truthy (c_maxDelay cfg) = Some m -> (0 < m)%Q) ->
  (0 <= currentDelay st)%Q ->
  ascending (sleeps tr).
Proof.
  intros Hrun Hb Hj HM.
  induction Hrun as [ st c evs Hend | st err c tr Hle Haw Hsr Hrun IH ]; intros Hcd.
  - destruct Hend; exact I.
  - pose proof (runFrom_first_wait _ _ _ Hrun Hj) as Hfirst.
    observe. cbn [app retried currentDelay] in *.
    unfold waitTime in *. rewrite Hj, Hb in *.
    set (w := cappedWait true (c_maxDelay cfg) (currentDelay st)) in *.
    assert (Hw : (0 <= w)%Q /\ (w <= cappedWait true (c_maxDelay cfg) w)%Q).
    { unfold w, cappedWait. destruct (truthy (c_maxDelay cfg)) as [m | ] eqn:Hm.
      - specialize (HM m eq_refl).
        destruct (Qgtb (currentDelay st * 2) m) eqn:Hg.
        + split; [ lra | ]. destruct (Qgtb (m * 2) m); lra.
        + apply Qgtb_false in Hg. split; [ lra | ].
          destruct (Qgtb (currentDelay st * 2 * 2) m) eqn:Hg'; lra.
      - lra. }
    apply ascending_cons; [ apply IH; tauto | ].
    destruct (sleeps tr) as [ | y l ]; [ exact I | ]. subst y. tauto.
Qed.

Lemma runFrom_nonnegative st c tr :
  runFrom cfg fn rand st c tr ->
  (forall m, truthy (c_maxDelay cfg) = Some m -> (0 < m)%Q) ->
  (c_jitter cfg = true -> forall i, (0 <= rand i < 1)%Q) ->
  (0 <= currentDelay st)%Q ->
  Forall (fun w => (0 <= w)%Q) (sleeps tr).
Proof.
  intros Hrun HM Hr.
  induction Hrun as [ st c evs Hend | st err c tr Hle Haw Hsr Hrun IH ]; intros Hcd.
  - destruct Hend; constructor.
  - observe. cbn [app retried currentDelay] in *.
    assert (Hpre : (0 <= cappedWait (c_backoff cfg) (c_maxDelay cfg) (currentDelay st))%Q).
    { unfold cappedWait. destruct (truthy (c_maxDelay cfg)) as [m | ] eqn:Hm.
      - specialize (HM m eq_refl). destruct (Qgtb _ m), (c_backoff cfg); lra.
      - destruct (c_backoff cfg); lra. }
    assert (Hw : (0 <= waitTime (c_backoff cfg) (c_maxDelay cfg) (c_jitter cfg)
                          (rand (draws st)) (currentDelay st))%Q).
    { unfold waitTime. destruct (c_jitter cfg) eqn:Hj; [ | exact Hpre ].
      destruct (randomFactor_bounds _ (Hr eq_refl (draws st))) as [Hlo _]. nra. }
    constructor; [ exact Hw | now apply IH ].
Qed.

End RunFacts.

(** ** Configurations the loop cannot tell apart *)

Section Alike.
Context {T E : Type}.
Variables cfg cfg' : Config E.
Variables fn fn' : nat -> behaviour T E.
Variable rand : nat -> Q.
Hypothesis same : alike cfg cfg' fn fn'.

Lemma waitTime_alike r d :
  waitTime (c_backoff cfg) (c_maxDelay cfg) (c_jitter cfg) r d =
  waitTime (c_backoff cfg') (c_maxDelay cfg') (c_jitter cfg') r d.
Proof.
  destruct same as (_ & _ & Hb & Hj & HM & _).
  unfold waitTime, cappedWait. now rewrite Hb, Hj, HM.
Qed.

Lemma iteration_alike st :
  iteration cfg fn rand st = iteration cfg' fn' rand st.
Proof.
  pose proof waitTime_alike as Hw.
  destruct same as (HR & _ & _ & Hj & _ & Hhook & Hsr & Haw).
  unfold iteration, afterCall, catchBlock, entered; cbn [attempt currentDelay calls draws].
  rewrite <- HR, <- Haw.
  destruct (attempt st <=? c_retries cfg); [ | reflexivity ].
  destruct (awaitAttempt (c_timeout cfg) (fn (calls st))) as [v | err | ]; try reflexivity.
  rewrite <- Hw, <- Hsr, <- Hj.
  destruct (attempt st + 1 >? c_retries cfg); [ reflexivity | ].
  destruct (c_shouldRetry cfg err (attempt st + 1)); cbn [negb]; [ | reflexivity ].
  destruct (c_onRetry cfg) as [h | ], (c_onRetry cfg') as [h' | ]; try reflexivity.
  - destruct Hhook as [_ Hhook]. now specialize (Hhook eq_refl).
  - destruct Hhook as [Hhook _]. now specialize (Hhook eq_refl).
Qed.

Lemma loop_alike fuel :
  forall st, loop cfg fn rand fuel st = loop cfg' fn' rand fuel st.
Proof.
  induction fuel as [ | fuel IH ]; intros st; [ reflexivity | ].
  rewrite !loop_S, iteration_alike.
  destruct (iteration cfg' fn' rand st) as [st' evs | c evs]; [ | reflexivity ].
  now rewrite IH.
Qed.

Lemma run_alike : run cfg fn rand = run cfg' fn' rand.
Proof.
  unfold run, enough, initial. rewrite loop_alike.
  destruct same as (HR & Hd & _). now rewrite HR, Hd.
Qed.

End Alike.

(** ** Properties of whole runs of [retry] *)

Section WholeRun.
Context {T E : Type}.
Variable fn : nat -> behaviour T E.
Variable options : RetryOptions E.
Variable rand : nat -> Q.

Lemma In_shouldRetryCalls (tr : list (event E)) err a :
  In (err, a) (shouldRetryCalls tr) -> In (EvShouldRetry err a) tr.
Proof.
  induction tr as [ | [a' | e a' | e a' | w] tr IH ]; cbn; auto.
  intros [H | H]; [ injection H as -> ->; auto | auto ].
Qed.

Lemma In_onRetryCalls (tr : list (event E)) err a :
  In (err, a) (onRetryCalls tr) -> In (EvOnRetry err a) tr.
Proof.
  induction tr as [ | [a' | e a' | e a' | w] tr IH ]; cbn; auto.
  intros [H | H]; [ injection H as -> ->; auto | auto ].
Qed.

(** A run that starts with [n] failures which [shouldRetry] accepts and
    whose next attempt succeeds. *)
Lemma loop_succeeds_after (cfg : Config E) n :
  forall fuel st v,
    attempt st + Z.of_nat n <= c_retries cfg ->
    (n < fuel)%nat ->
    (forall k, (k < n)%nat ->
       exists err,
         awaitAttempt (c_timeout cfg) (fn (calls st + k)%nat) = Failed err /\
         c_shouldRetry cfg err (attempt st + Z.of_nat k + 1) = true) ->
    awaitAttempt (c_timeout cfg) (fn (calls st + n)%nat) = Succeeded v ->
    exists tr,
      loop cfg fn rand fuel st = Some (Returned v, tr) /\ invocations tr = S n.
Proof.
  induction n as [ | n IH ]; intros fuel st v Hle Hfuel Hfails Hok;
    (destruct fuel as [ | fuel ]; [ lia | ]); rewrite loop_S.
  - rewrite Nat.add_0_r in Hok.
    rewrite (iteration_success _ _ _ _ v); [ | lia | exact Hok ].
    eexists. split; reflexivity.
  - destruct (Hfails 0%nat) as (err & Haw & Hsr); [ lia | ].
    rewrite Nat.add_0_r in Haw. rewrite Z.add_0_r in Hsr.
    rewrite (iteration_retry _ _ _ _ err); [ | lia | exact Haw | exact Hsr ].
    destruct (IH fuel (retried cfg rand st) v) as (tr & Hrun & Hinv).
    + cbn [retried attempt]. lia.
    + lia.
    + intros k Hk. cbn [retried attempt calls].
      destruct (Hfails (S k)) as (err' & Haw' & Hsr'); [ lia | ].
      exists err'. split.
      * now rewrite Nat.add_succ_comm.
      * rewrite <- Hsr'. f_equal. lia.
    + cbn [retried calls]. now rewrite Nat.add_succ_comm.
    + rewrite Hrun. eexists. split; [ reflexivity | ].
      now rewrite invocations_app, invocations_retryEvents, Hinv.
Qed.

(** A run that starts with [n] failures which [shouldRetry] accepts and
    whose next attempt fails for good: it is the last of the budget, or
    [shouldRetry] declines. *)
Lemma loop_throws_after (cfg : Config E) n :
  forall fuel st err,
    attempt st + Z.of_nat n <= c_retries cfg ->
    (n < fuel)%nat ->
    (forall k, (k < n)%nat ->
       exists err',
         awaitAttempt (c_timeout cfg) (fn (calls st + k)%nat) = Failed err' /\
         c_shouldRetry cfg err' (attempt st + Z.of_nat k + 1) = true) ->
    awaitAttempt (c_timeout cfg) (fn (calls st + n)%nat) = Failed err ->
    attempt st + Z.of_nat n = c_retries cfg \/
      c_shouldRetry cfg err (attempt st + Z.of_nat n + 1) = false ->
    exists tr,
      loop cfg fn rand fuel st = Some (Threw err, tr) /\ invocations tr = S n.
Proof.
  induction n as [ | n IH ]; intros fuel st err Hle Hfuel Hfails Hbad Hstop;
    (destruct fuel as [ | fuel ]; [ lia | ]); rewrite loop_S.
  - rewrite Nat.add_0_r in Hbad. rewrite Z.add_0_r in Hstop, Hle.
    destruct (Z.eq_dec (attempt st) (c_retries cfg)) as [Heq | Hne].
    + rewrite (iteration_last_failure _ _ _ _ err); [ | exact Heq | exact Hbad ].
      eexists. split; reflexivity.
    + destruct Hstop as [Heq | Hno]; [ contradiction | ].
      rewrite (iteration_declined _ _ _ _ err); [ | lia | exact Hbad | exact Hno ].
      eexists. split; reflexivity.
  - destruct (Hfails 0%nat) as (err0 & Haw & Hsr); [ lia | ].
    rewrite Nat.add_0_r in Haw. rewrite Z.add_0_r in Hsr.
    rewrite (iteration_retry _ _ _ _ err0); [ | lia | exact Haw | exact Hsr ].
    destruct (IH fuel (retried cfg rand st) err) as (tr & Hrun & Hinv).
    + cbn [retried attempt]. lia.
    + lia.
    + intros k Hk. cbn [retried attempt calls].
      destruct (Hfails (S k)) as (err' & Haw' & Hsr'); [ lia | ].
      exists err'. split.
      * now rewrite Nat.add_succ_comm.
      * rewrite <- Hsr'. f_equal. lia.
    + cbn [retried calls]. now rewrite Nat.add_succ_comm.
    + cbn [retried attempt].
      destruct Hstop as [Heq | Hno]; [ left; lia | right ].
      rewrite <- Hno. f_equal. lia.
    + rewrite Hrun. eexists. split; [ reflexivity | ].
      now rewrite invocations_app, invocations_retryEvents, Hinv.
Qed.

(** X1. With [retries = R >= 0], whatever the operation and the hooks do,
    [fn] is invoked at least once and at most [R + 1] times. *)
Theorem invocations_within_budget (R : Z) :
  c_retries (destructure options) = R ->
  0 <= R ->
  exists c tr,
    retry fn options rand = Some (c, tr) /\
    (1 <= invocations tr)%nat /\
    Z.of_nat (invocations tr) <= R + 1.
Proof.
  intros HR Hpos.
  destruct (run_runFrom (destructure options) fn rand) as (c & tr & Hrun & Hfrom).
  exists c, tr. split; [ exact Hrun | ].
  destruct (runFrom_budget _ _ _ _ _ _ Hfrom) as [H1 H2]; cbn [initial attempt] in *; lia.
Qed.

(** X2. With [retries >= 0], every invocation of [fn] but the last is
    followed by exactly one wait; [onRetry], when given, is called once per
    wait and never otherwise; [shouldRetry] is called once per wait and at
    most once more. *)
Theorem waits_and_hook_calls_counted :
  0 <= c_retries (destructure options) ->
  exists c tr,
    retry fn options rand = Some (c, tr) /\
    invocations tr = S (List.length (sleeps tr)) /\
    List.length (onRetryCalls tr) =
      match onRetry options with
      | Some _ => List.length (sleeps tr)
      | None => O
      end /\
    (List.length (sleeps tr) <= List.length (shouldRetryCalls tr)
       <= S (List.length (sleeps tr)))%nat.
Proof.
  intros Hpos.
  destruct (run_runFrom (destructure options) fn rand) as (c & tr & Hrun & Hfrom).
  exists c, tr. split; [ exact Hrun | ].
  now apply (runFrom_accounts _ _ _ _ _ _ Hfrom).
Qed.

(** X3. The attempt numbers passed along are consecutive from 1: the
    invocations of [fn] are attempts 1, 2, ..., and so are the calls of
    [shouldRetry] and of [onRetry], each of which receives the error its
    attempt failed with. *)
Theorem attempts_numbered_consecutively :
  exists c tr,
    retry fn options rand = Some (c, tr) /\
    callNumbers tr = countFrom 1 (invocations tr) /\
    map snd (shouldRetryCalls tr) = countFrom 1 (List.length (shouldRetryCalls tr)) /\
    (onRetry options <> None ->
     map snd (onRetryCalls tr) = countFrom 1 (List.length (onRetryCalls tr))) /\
    (forall err a,
        In (err, a) (shouldRetryCalls tr) \/ In (err, a) (onRetryCalls tr) ->
        awaitAttempt (timeout options) (fn (Z.to_nat (a - 1))) = Failed err).
Proof.
  destruct (run_runFrom (destructure options) fn rand) as (c & tr & Hrun & Hfrom).
  exists c, tr. split; [ exact Hrun | ].
  destruct (runFrom_numbering _ _ _ _ _ _ Hfrom) as (H1 & H2 & H3).
  repeat split; try assumption.
  intros err a Hin.
  apply (hooks_after_failure (destructure options) fn rand _ _ c tr err a
           (synced_initial (destructure options)) Hrun).
  destruct Hin as [Hin | Hin];
    [ left; now apply In_shouldRetryCalls | right; now apply In_onRetryCalls ].
Qed.

(** X4. With [retries >= 0], the result of [retry] is the outcome of the last
    invocation of [fn]: its value when [retry] returns, its error, untouched,
    when [retry] throws.  All invocations before it failed and were accepted
    by [shouldRetry]. *)
Theorem result_is_last_attempt :
  0 <= c_retries (destructure options) ->
  exists c tr n,
    retry fn options rand = Some (c, tr) /\
    invocations tr = S n /\
    (forall k, (k < n)%nat ->
       exists err,
         awaitAttempt (timeout options) (fn k) = Failed err /\
         c_shouldRetry (destructure options) err (Z.of_nat k + 1) = true) /\
    awaitAttempt (timeout options) (fn n) =
      match c with
      | Returned v => Succeeded v
      | Threw err => Failed err
      | NeverSettles => Stuck
      end.
Proof.
  intros Hpos.
  destruct (run_runFrom (destructure options) fn rand) as (c & tr & Hrun & Hfrom).
  destruct (runFrom_budget _ _ _ _ _ _ Hfrom Hpos) as [Hone _].
  destruct (runFrom_outcome _ _ _ _ _ _ Hfrom (synced_initial _) Hpos) as [Hbefore Hlast].
  exists c, tr, (pred (invocations tr)).
  split; [ exact Hrun | ]. split; [ lia | ].
  cbn [initial calls Nat.add] in Hbefore, Hlast.
  split; [ | exact Hlast ].
  intros k Hk. apply Hbefore. lia.
Qed.

(** X5. When the first [n <= retries] attempts fail and are accepted by
    [shouldRetry] and attempt [n + 1] succeeds, [retry] returns its value
    after [n + 1] invocations and [n] waits, and [onRetry], when given, has
    been called for attempts 1 to [n]. *)
Theorem succeeds_after_failures (n : nat) (v : T) :
  Z.of_nat n <= c_retries (destructure options) ->
  (forall k, (k < n)%nat ->
     exists err,
       awaitAttempt (timeout options) (fn k) = Failed err /\
       c_shouldRetry (destructure options) err (Z.of_nat k + 1) = true) ->
  awaitAttempt (timeout options) (fn n) = Succeeded v ->
  exists tr,
    retry fn options rand = Some (Returned v, tr) /\
    invocations tr = S n /\
    List.length (sleeps tr) = n /\
    (onRetry options <> None -> map snd (onRetryCalls tr) = countFrom 1 n).
Proof.
  intros Hle Hfails Hok.
  destruct (loop_succeeds_after (destructure options) n
              (enough (destructure options)) (initial (destructure options)) v)
    as (tr & Hrun & Hinv).
  - cbn [initial attempt]. lia.
  - unfold enough. lia.
  - intros k Hk. cbn [initial attempt calls Nat.add Z.add]. now apply Hfails.
  - exact Hok.
  - exists tr. split; [ exact Hrun | ]. split; [ exact Hinv | ].
    pose proof (loop_runFrom _ _ _ _ _ _ _ Hrun) as Hfrom.
    destruct (runFrom_accounts _ _ _ _ _ _ Hfrom) as (Hacc & Hon & _);
      [ cbn [initial attempt]; lia | ].
    destruct (runFrom_numbering _ _ _ _ _ _ Hfrom) as (_ & _ & Hnum).
    assert (Hn : List.length (sleeps tr) = n) by lia.
    split; [ exact Hn | ].
    intros Hhook. cbn [destructure c_onRetry initial attempt Z.add] in Hon, Hnum.
    rewrite (Hnum Hhook), Hon.
    destruct (onRetry options); [ now rewrite Hn | congruence ].
Qed.

(** X6. With a non-zero [timeout] the promise returned by [retry] always
    settles.  Without one (unset or 0) and with [retries >= 0], an operation
    whose first promise stays pending leaves [retry] pending after that one
    invocation. *)
Theorem timeout_makes_retry_settle :
  (truthy (timeout options) <> None ->
   exists c tr, retry fn options rand = Some (c, tr) /\ c <> NeverSettles) /\
  (truthy (timeout options) = None ->
   0 <= c_retries (destructure options) ->
   fn 0%nat = Pending ->
   retry fn options rand = Some (NeverSettles, [EvCall 1])).
Proof.
  split.
  - intros Ht.
    destruct (run_runFrom (destructure options) fn rand) as (c & tr & Hrun & Hfrom).
    exists c, tr. split; [ exact Hrun | ].
    now apply (runFrom_settles _ _ _ _ _ _ Hfrom).
  - intros Ht Hpos Hpending.
    unfold retry, run, enough. rewrite loop_S.
    unfold iteration; cbn [initial attempt calls destructure c_timeout].
    unfold awaitAttempt. rewrite Ht, Hpending.
    replace (0 <=? c_retries (destructure options)) with true
      by (symmetry; apply Z.leb_le; exact Hpos).
    reflexivity.
Qed.

(** X7. A timeout of at most 2^31 - 1 ms within which every promise of the
    operation settles changes nothing: the run is the one without a
    timeout. *)
Theorem timeout_transparent_when_in_time (t : Q) :
  (t <= TIMEOUT_MAX)%Q ->
  (forall k, exists elapsed s, fn k = Settles elapsed s /\ (elapsed <= t)%Q) ->
  retry fn (withTimeout (Some t) options) rand
    = retry fn (withTimeout None options) rand.
Proof.
  intros Hmax Hfast. unfold retry. apply run_alike.
  unfold alike; cbn. repeat split; try tauto.
  intros k. destruct (Hfast k) as (elapsed & s0 & -> & Hle).
  unfold awaitAttempt, truthy. destruct (Qeq_bool t 0); [ reflexivity | ].
  pose proof (timerDelay_ge t Hmax) as Hd.
  assert (Hin : Qle_bool elapsed (timerDelay t) = true) by (apply Qle_bool_iff; lra).
  now rewrite Hin.
Qed.

(** X8. A [timeout] of 0 and a [maxDelay] of 0 are the same as leaving them
    out. *)
Theorem zero_timeout_and_maxDelay_are_unset (z z' : Q) :
  (z == 0)%Q ->
  (z' == 0)%Q ->
  retry fn (withTimeout (Some z) (withMaxDelay (Some z') options)) rand
    = retry fn (withTimeout None (withMaxDelay None options)) rand.
Proof.
  intros Hz Hz'. unfold retry. apply run_alike.
  apply Qeq_bool_iff in Hz, Hz'.
  unfold alike; cbn. rewrite Hz'. repeat split; try tauto.
  intros k. unfold awaitAttempt, truthy. now rewrite Hz.
Qed.

(** X9. With a non-zero [maxDelay] and no jitter no wait exceeds [maxDelay];
    with jitter, random numbers in [0, 1) and a positive [maxDelay], no wait
    exceeds 1.2 times [maxDelay]. *)
Theorem waits_bounded_by_maxDelay (m : Q) :
  truthy (maxDelay options) = Some m ->
  exists c tr,
    retry fn options rand = Some (c, tr) /\
    (c_jitter (destructure options) = false ->
     Forall (fun w => (w <= m)%Q) (sleeps tr)) /\
    ((forall i, (0 <= rand i < 1)%Q) -> (0 <= m)%Q ->
     Forall (fun w => (w <= (12 # 10) * m)%Q) (sleeps tr)).
Proof.
  intros HM.
  destruct (run_runFrom (destructure options) fn rand) as (c & tr & Hrun & Hfrom).
  exists c, tr. split; [ exact Hrun | ].
  now apply (runFrom_capped _ _ _ _ _ _ m Hfrom).
Qed.

(** X10. Without backoff and jitter every wait is the same: [delay], or
    [maxDelay] when that is non-zero and smaller than [delay]. *)
Theorem fixed_delay_without_backoff :
  c_backoff (destructure options) = false ->
  c_jitter (destructure options) = false ->
  exists c tr,
    retry fn options rand = Some (c, tr) /\
    Forall (fun w =>
              w = match truthy (maxDelay options) with
                  | Some m => if Qgtb (c_delay (destructure options)) m
                              then m else c_delay (destructure options)
                  | None => c_delay (destructure options)
                  end)
           (sleeps tr).
Proof.
  intros Hb Hj.
  destruct (run_runFrom (destructure options) fn rand) as (c & tr & Hrun & Hfrom).
  exists c, tr. split; [ exact Hrun | ].
  exact (runFrom_fixed _ _ _ _ _ _ Hfrom Hb Hj).
Qed.

(** X11. With backoff, without jitter and without a cap, the [k]-th wait
    (counting from 1) is [delay * 2^k]. *)
Theorem backoff_waits_are_powers_of_two :
  c_backoff (destructure options) = true ->
  c_jitter (destructure options) = false ->
  truthy (maxDelay options) = None ->
  exists c tr,
    retry fn options rand = Some (c, tr) /\
    forall k w,
      nth_error (sleeps tr) k = Some w ->
      (w == c_delay (destructure options) * 2 ^ (Z.of_nat k + 1))%Q.
Proof.
  intros Hb Hj HM.
  destruct (run_runFrom (destructure options) fn rand) as (c & tr & Hrun & Hfrom).
  exists c, tr. split; [ exact Hrun | ].
  exact (runFrom_doubling _ _ _ _ _ _ Hfrom Hb Hj HM).
Qed.

(** X12. With backoff, without jitter, with a non-negative [delay] and a
    [maxDelay] that is unset, 0 or positive, the waits never decrease. *)
Theorem backoff_waits_ascend :
  c_backoff (destructure options) = true ->
  c_jitter (destructure options) = false ->
  (forall m, truthy (maxDelay options) = Some m -> (0 < m)%Q) ->
  (0 <= c_delay (destructure options))%Q ->
  exists c tr,
    retry fn options rand = Some (c, tr) /\ ascending (sleeps tr).
Proof.
  intros Hb Hj HM Hd.
  destruct (run_runFrom (destructure options) fn rand) as (c & tr & Hrun & Hfrom).
  exists c, tr. split; [ exact Hrun | ].
  exact (runFrom_ascending _ _ _ _ _ _ Hfrom Hb Hj HM Hd).
Qed.

(** X13. When the first [n <= retries] attempts fail and are accepted by
    [shouldRetry] and attempt [n + 1] fails with an error that [shouldRetry]
    declines, or is the last attempt of the budget, [retry] throws that very
    error after [n + 1] invocations and [n] waits. *)
Theorem throws_after_failures (n : nat) (err : error E) :
  Z.of_nat n <= c_retries (destructure options) ->
  (forall k, (k < n)%nat ->
     exists err',
       awaitAttempt (timeout options) (fn k) = Failed err' /\
       c_shouldRetry (destructure options) err' (Z.of_nat k + 1) = true) ->
  awaitAttempt (timeout options) (fn n) = Failed err ->
  Z.of_nat n = c_retries (destructure options) \/
    c_shouldRetry (destructure options) err (Z.of_nat n + 1) = false ->
  exists tr,
    retry fn options rand = Some (Threw err, tr) /\
    invocations tr = S n /\
    List.length (sleeps tr) = n.
Proof.
  intros Hle Hfails Hbad Hstop.
  destruct (loop_throws_after (destructure options) n
              (enough (destructure options)) (initial (destructure options)) err)
    as (tr & Hrun & Hinv).
  - cbn [initial attempt]. lia.
  - unfold enough. lia.
  - intros k Hk. cbn [initial attempt calls Nat.add Z.add]. now apply Hfails.
  - exact Hbad.
  - cbn [initial attempt Z.add]. exact Hstop.
  - exists tr. split; [ exact Hrun | ]. split; [ exact Hinv | ].
    pose proof (loop_runFrom _ _ _ _ _ _ _ Hrun) as Hfrom.
    destruct (runFrom_accounts _ _ _ _ _ _ Hfrom) as (Hacc & _);
      [ cbn [initial attempt]; lia | ].
    lia.
Qed.

(** X14. With a non-negative [delay], a [maxDelay] that is unset, 0 or
    positive, and random numbers in [0, 1) when there is jitter, no wait is
    negative. *)
Theorem waits_never_negative :
  (0 <= c_delay (destructure options))%Q ->
  (forall m, truthy (maxDelay options) = Some m -> (0 < m)%Q) ->
  (c_jitter (destructure options) = true -> forall i, (0 <= rand i < 1)%Q) ->
  exists c tr,
    retry fn options rand = Some (c, tr) /\
    Forall (fun w => (0 <= w)%Q) (sleeps tr).
Proof.
  intros Hd HM Hr.
  destruct (run_runFrom (destructure options) fn rand) as (c & tr & Hrun & Hfrom).
  exists c, tr. split; [ exact Hrun | ].
  exact (runFrom_nonnegative _ _ _ _ _ _ Hfrom HM Hr Hd).
Qed.

End WholeRun.

(** ** The whole-run properties at concrete operations and options *)

Import Scenarios.

(** The usage example of the documentation: two failures, then success,
    under [{ retries: 5, delay: 500, backoff: true, jitter: true }]. *)
Lemma invocations_within_budget_example :
  exists c tr,
    retry (failsFirst 2) readmeOptions (constRandom (1 # 2)) = Some (c, tr) /\
    (1 <= invocations tr)%nat /\
    Z.of_nat (invocations tr) <= 5 + 1.
Proof.
  apply (invocations_within_budget (failsFirst 2) readmeOptions (constRandom (1 # 2)) 5).
  - reflexivity.
  - lia.
Defined.

Lemma waits_and_hook_calls_counted_example :
  exists c tr,
    retry (failsFirst 2) readmeOptions (constRandom (1 # 2)) = Some (c, tr) /\
    invocations tr = S (List.length (sleeps tr)) /\
    List.length (onRetryCalls tr) = List.length (sleeps tr) /\
    (List.length (sleeps tr) <= List.length (shouldRetryCalls tr)
       <= S (List.length (sleeps tr)))%nat.
Proof.
  apply (waits_and_hook_calls_counted (failsFirst 2) readmeOptions (constRandom (1 # 2))).
  cbn. lia.
Defined.

Lemma attempts_numbered_consecutively_example :
  exists c tr,
    retry (failsFirst 2) readmeOptions (constRandom (1 # 2)) = Some (c, tr) /\
    callNumbers tr = countFrom 1 (invocations tr) /\
    map snd (onRetryCalls tr) = countFrom 1 (List.length (onRetryCalls tr)).
Proof.
  destruct (attempts_numbered_consecutively (failsFirst 2) readmeOptions
              (constRandom (1 # 2)))
    as (c & tr & Hrun & Hcalls & _ & Hhook & _).
  exists c, tr. split; [ exact Hrun | ]. split; [ exact Hcalls | ].
  apply Hhook. discriminate.
Defined.

Lemma result_is_last_attempt_example :
  exists c tr n,
    retry (failsFirst 2) readmeOptions (constRandom (1 # 2)) = Some (c, tr) /\
    invocations tr = S n /\
    (forall k, (k < n)%nat ->
       exists err,
         awaitAttempt (timeout readmeOptions) (failsFirst 2 k) = Failed err /\
         c_shouldRetry (destructure readmeOptions) err (Z.of_nat k + 1) = true) /\
    awaitAttempt (timeout readmeOptions) (failsFirst 2 n) =
      match c with
      | Returned v => Succeeded v
      | Threw err => Failed err
      | NeverSettles => Stuck
      end.
Proof.
  apply (result_is_last_attempt (failsFirst 2) readmeOptions (constRandom (1 # 2))).
  cbn. lia.
Defined.

Lemma succeeds_after_failures_example :
  exists tr,
    retry (failsFirst 2) readmeOptions (constRandom (1 # 2))
      = Some (Returned "ok"%string, tr) /\
    invocations tr = 3%nat /\
    List.length (sleeps tr) = 2%nat /\
    (onRetry readmeOptions <> None -> map snd (onRetryCalls tr) = [1; 2]).
Proof.
  apply (succeeds_after_failures (failsFirst 2) readmeOptions (constRandom (1 # 2))
           2 "ok"%string).
  - cbn. lia.
  - intros k Hk. destruct k as [ | [ | k ] ]; [ | | lia ];
      eexists; split; reflexivity.
  - reflexivity.
Defined.

(** [{ retries: 2, timeout: 1000 }] on an operation that never settles, and
    the same without the timeout. *)
Lemma timeout_makes_retry_settle_example :
  (exists c tr,
      retry hanging timeoutOptions (constRandom 0) = Some (c, tr) /\ c <> NeverSettles) /\
  retry hanging (quickOptions None) (constRandom 0) = Some (NeverSettles, [EvCall 1]).
Proof.
  split.
  - apply (proj1 (timeout_makes_retry_settle hanging timeoutOptions (constRandom 0))).
    cbn. discriminate.
  - apply (proj2 (timeout_makes_retry_settle hanging (quickOptions None) (constRandom 0))).
    + reflexivity.
    + cbn. lia.
    + reflexivity.
Defined.

Lemma timeout_transparent_when_in_time_example :
  retry rejecting (withTimeout (Some 1000%Q) (quickOptions None)) (constRandom 0)
    = retry rejecting (withTimeout None (quickOptions None)) (constRandom 0).
Proof.
  apply (timeout_transparent_when_in_time rejecting (quickOptions None) (constRandom 0)
           1000%Q).
  - unfold TIMEOUT_MAX. lra.
  - intros k. exists 5%Q, (Rejects k). split; [ reflexivity | lra ].
Defined.

Lemma zero_timeout_and_maxDelay_are_unset_example :
  retry hanging (withTimeout (Some 0%Q) (withMaxDelay (Some (0 # 3)%Q) fixedOptions))
        (constRandom 0)
    = retry hanging (withTimeout None (withMaxDelay None fixedOptions)) (constRandom 0).
Proof.
  apply (zero_timeout_and_maxDelay_are_unset hanging fixedOptions (constRandom 0)
           0%Q (0 # 3)%Q); reflexivity.
Defined.

(** [{ retries: 6, delay: 500, backoff: true, maxDelay: 2000 }] of the
    documentation, on an operation that always rejects. *)
Lemma waits_bounded_by_maxDelay_example :
  exists c tr,
    retry rejecting cappedBackoffOptions (constRandom 0) = Some (c, tr) /\
    (c_jitter (destructure cappedBackoffOptions) = false ->
     Forall (fun w => (w <= 2000)%Q) (sleeps tr)) /\
    ((forall i, (0 <= constRandom 0 i < 1)%Q) -> (0 <= 2000)%Q ->
     Forall (fun w => (w <= (12 # 10) * 2000)%Q) (sleeps tr)).
Proof.
  apply (waits_bounded_by_maxDelay rejecting cappedBackoffOptions (constRandom 0) 2000%Q).
  reflexivity.
Defined.

(** [{ retries: 3, delay: 300 }] *)
Lemma fixed_delay_without_backoff_example :
  exists c tr,
    retry rejecting fixedOptions (constRandom 0) = Some (c, tr) /\
    Forall (fun w => w = 300%Q) (sleeps tr).
Proof.
  apply (fixed_delay_without_backoff rejecting fixedOptions (constRandom 0)); reflexivity.
Defined.

Lemma backoff_waits_are_powers_of_two_example :
  exists c tr,
    retry rejecting backoffOptions (constRandom 0) = Some (c, tr) /\
    forall k w,
      nth_error (sleeps tr) k = Some w -> (w == 100 * 2 ^ (Z.of_nat k + 1))%Q.
Proof.
  apply (backoff_waits_are_powers_of_two rejecting backoffOptions (constRandom 0));
    reflexivity.
Defined.

Lemma backoff_waits_ascend_example :
  exists c tr,
    retry rejecting cappedBackoffOptions (constRandom 0) = Some (c, tr) /\
    ascending (sleeps tr).
Proof.
  apply (backoff_waits_ascend rejecting cappedBackoffOptions (constRandom 0)).
  - reflexivity.
  - reflexivity.
  - intros m Hm. cbn in Hm. injection Hm as <-. lra.
  - cbn. lra.
Defined.

(** The budget of [{ retries: 3 }] used up by an operation that always
    rejects: the fourth rejection is thrown. *)
Lemma throws_after_failures_example :
  exists tr,
    retry rejecting backoffOptions (constRandom 0) = Some (Threw (OpError 3%nat), tr) /\
    invocations tr = 4%nat /\
    List.length (sleeps tr) = 3%nat.
Proof.
  apply (throws_after_failures rejecting backoffOptions (constRandom 0) 3 (OpError 3%nat)).
  - cbn. lia.
  - intros k _. eexists. split; reflexivity.
  - reflexivity.
  - left. reflexivity.
Defined.

Lemma waits_never_negative_example :
  exists c tr,
    retry (failsFirst 2) readmeOptions (constRandom (1 # 2)) = Some (c, tr) /\
    Forall (fun w => (0 <= w)%Q) (sleeps tr).
Proof.
  apply (waits_never_negative (failsFirst 2) readmeOptions (constRandom (1 # 2))).
  - cbn. lra.
  - intros m Hm. discriminate Hm.
  - intros _ i. unfold constRandom. lra.
Defined.

(** ** The per-attempt timeout *)

Section Timeout.
Context {T E : Type}.
Variable cfg : Config E.
Variable fn : nat -> behaviour T E.
Variable rand : nat -> Q.




End Timeout.




End Retry.
